(** * Fan-out exchange lab: publisher, four consumers, audit store

    A shallow embedding of the JavaScript sources

      - [config.js], [setup-exchange.js]
      - [action-publisher.js]                       (class [ActionPublisher])
      - [consumers/analytics-consumer.js]           (class [AnalyticsConsumer])
      - [consumers/notification-consumer.js]        (class [NotificationConsumer])
      - [consumers/audit-consumer.js]               (class [AuditConsumer])
      - [consumers/cache-invalidator.js]            (class [CacheInvalidator])

    JavaScript values are a tree type with [undefined], property reads can
    raise [TypeError], and every method that touches mutable state is a
    function in a state-and-exception monad in which the effects made before a
    [throw] stay.  What the program cannot decide for itself (the clock, the
    random generator, the outcome of file I/O, the broker) is an explicit
    input. *)

From Stdlib Require Import ZArith NArith String Ascii List Lia.
From Stdlib Require Import QArith Qround Qabs.
From Stdlib Require Import DecimalString DecimalPos DecimalN DecimalZ.
From Stdlib Require Import PrimFloat FloatOps SpecFloat FloatClass.
From stdpp Require Import base option gmap strings list fin_maps.

Open Scope string_scope.
Open Scope list_scope.
Set Warnings "-register-all,-inexact-float".

(** ** JavaScript values *)

Module JS.

(** A JavaScript number: an IEEE 754 binary64 value, with its fractions, its
    two zeros, its two infinities and [NaN]. *)
Definition number : Set := float.

(** The values the program handles: [undefined], [null], booleans, numbers,
    strings, arrays and plain objects.  An object is its own data properties
    in insertion order and inherits from [Object.prototype] only: functions,
    and with them [Date]s and objects with a [toJSON] method, are not
    values of this type. *)
Inductive value : Type :=
| VUndefined
| VNull
| VBool (b : bool)
| VNum (n : number)
| VStr (s : string)
| VArr (elems : list value)
| VObj (props : list (string * value)).

(** What a [throw] carries.  [SystemError] is a failed file operation with its
    code ([ENOENT], [EACCES], [ENOSPC], ...), [ChannelError] a channel closed
    by the broker with its reply ([NOT_FOUND], [PRECONDITION_FAILED]). *)
Inductive exn : Type :=
| TypeError
| SyntaxError
| SystemError (code : string)
| ChannelError (reply : string).

Inductive result (A : Type) : Type :=
| Ok (a : A)
| Throw (e : exn).
Arguments Ok {A} a.
Arguments Throw {A} e.

Definition rbind {A B} (r : result A) (k : A → result B) : result B :=
  match r with
  | Ok a => k a
  | Throw e => Throw e
  end.

(** Own-property lookup in a property list. *)
Fixpoint lookup_prop (k : string) (ps : list (string * value)) : option value :=
  match ps with
  | [] => None
  | (k', v) :: ps' => if String.eqb k k' then Some v else lookup_prop k ps'
  end.

(** [o.k] for the property names this program reads ([action], [userId],
    [timestamp], [data], [productId], [amount], [device], [field]): a
    [TypeError] on [undefined] and [null], the own property of an object if it
    has one, and [undefined] in every other case (none of these names is
    inherited from a prototype). *)
Definition get (o : value) (k : string) : result value :=
  match o with
  | VUndefined | VNull => Throw TypeError
  | VObj ps => Ok (default VUndefined (lookup_prop k ps))
  | _ => Ok VUndefined
  end.

(** [v === s] for a string literal [s]. *)
Definition strict_eq_str (v : value) (s : string) : bool :=
  match v with
  | VStr s' => String.eqb s' s
  | _ => false
  end.

(** *** Number::toString

    For a finite number [v = m * 2^e] other than zero the standard asks for
    integers [n], [k] and [s] with [k >= 1] and [10^(k-1) <= s < 10^k] such
    that [s * 10^(n-k)] reads back as [v], with [k] as small as possible and,
    among these, [s * 10^(n-k)] closest to [v] (an even [s] when two are
    equally close).  The search below is over exact rationals. *)

Definition Qltb (a b : Q) : bool := negb (Qle_bool b a).

(** [m * 2^e] and [s * 10^q]. *)
Definition binary (m e : Z) : Q := (inject_Z m * 2 ^ e)%Q.
Definition decimal (s q : Z) : Q := (inject_Z s * 10 ^ q)%Q.

(** Whether the real [x] reads back as the double [m * 2^e]: [x] lies between
    the midpoints to the two neighbouring doubles, a midpoint itself being
    rounded to the neighbour with the even significand.  The neighbour below
    is half as far where [m] is the least significand of its binade. *)
Definition rounds_to (m : positive) (e : Z) (x : Q) : bool :=
  let below := if (m =? 2 ^ 52)%positive && (-1074 <? e)%Z then 1%Z else 2%Z in
  let lo := binary (4 * Z.pos m - below) (e - 2) in
  let hi := binary (4 * Z.pos m + 2) (e - 2) in
  let even := Z.even (Z.pos m) in
  (Qltb lo x || even && Qeq_bool lo x) && (Qltb x hi || even && Qeq_bool x hi).

(** The least [n], from [n] on, with [v < 10^n]. *)
Fixpoint decade (fuel : nat) (v : Q) (n : Z) : Z :=
  match fuel with
  | O => n
  | S fuel' => if Qltb v (10 ^ n)%Q then n else decade fuel' v (n + 1)%Z
  end.

(** Where the search for the decade of [m * 2^e] starts: with
    [l = log2 m + e] the number lies in [[2^l, 2^(l+1))], and
    [10^(0.30103 * l - 2) < 2^l] for every exponent of a double, so the
    start is at most the decade, and less than eight below it. *)
Definition decade_start (m : positive) (e : Z) : Z :=
  ((Z.log2 (Z.pos m) + e) * 30103 / 100000 - 1)%Z.

(** The [k]-digit integers [s] for which [s * 10^(n-k)] reads back as
    [m * 2^e]: only the two next to [m * 2^e / 10^(n-k)] can. *)
Definition candidates (m : positive) (e k n : Z) : list (Z * Z) :=
  let s0 := Qfloor (binary (Z.pos m) e * 10 ^ (k - n))%Q in
  filter (λ c : Z * Z,
            bool_decide (10 ^ (k - 1) ≤ c.1 < 10 ^ k)%Z
            && rounds_to m e (decimal c.1 (n - k)))
         [(s0, n); ((s0 + 1)%Z, n)].

(** Whether candidate [a] is to be preferred to candidate [b]. *)
Definition closer (v : Q) (k : Z) (a b : Z * Z) : bool :=
  let da := Qabs (decimal a.1 (a.2 - k) - v)%Q in
  let db := Qabs (decimal b.1 (b.2 - k) - v)%Q in
  Qltb da db || Qeq_bool da db && Z.even a.1 && negb (Z.even b.1).

Definition closest (v : Q) (k : Z) (cs : list (Z * Z)) : option (Z * Z) :=
  foldr (λ c best, match best with
                   | Some b => if closer v k b c then Some b else Some c
                   | None => Some c
                   end) None cs.

(** The triple [(s, k, n)] for the double [m * 2^e], trying the lengths
    [k], [k + 1], ... in turn.  The decimal exponent [n] is the decade [n0]
    of [m * 2^e] or, when the digits round up to a power of ten, the next
    one. *)
Fixpoint shortest_from (fuel : nat) (m : positive) (e n0 k : Z) : Z * Z * Z :=
  match fuel with
  | O => (Z.pos m, 1%Z, n0)
  | S fuel' =>
      match closest (binary (Z.pos m) e) k
              (candidates m e k n0 ++ candidates m e k (n0 + 1)) with
      | Some c => (c.1, k, c.2)
      | None => shortest_from fuel' m e n0 (k + 1)%Z
      end
  end.

(** Seventeen digits tell any two doubles apart, so the search ends at
    [k <= 17]. *)
Definition shortest (m : positive) (e : Z) : Z * Z * Z :=
  shortest_from 17 m e (decade 8 (binary (Z.pos m) e) (decade_start m e)) 1.

Definition digits_of (s : Z) : string :=
  NilEmpty.string_of_uint (N.to_uint (Z.to_N s)).

Definition zeros (n : Z) : string :=
  string_of_list_ascii (replicate (Z.to_nat n) "0"%char).

Definition exponent_part (n : Z) : string :=
  "e" +:+ (if (0 <=? n - 1)%Z then "+" else "-") +:+ digits_of (Z.abs (n - 1)).

(** The digits laid out: plain for [-5 <= n <= 21], with an exponent
    otherwise. *)
Definition format (s k n : Z) : string :=
  let d := digits_of s in
  if bool_decide (-5 ≤ n ≤ 21)%Z then
    if (k <=? n)%Z then d +:+ zeros (n - k)
    else if (0 <? n)%Z then
      String.substring 0 (Z.to_nat n) d +:+ "." +:+
      String.substring (Z.to_nat n) (Z.to_nat (k - n)) d
    else "0." +:+ zeros (- n) +:+ d
  else if (k =? 1)%Z then d +:+ exponent_part n
  else String.substring 0 1 d +:+ "." +:+
       String.substring 1 (Z.to_nat (k - 1)) d +:+ exponent_part n.

(** Number::toString(x) in radix 10; both zeros print as [0]. *)
Definition number_to_string (x : number) : string :=
  match Prim2SF x with
  | S754_nan => "NaN"
  | S754_zero _ => "0"
  | S754_infinity false => "Infinity"
  | S754_infinity true => "-Infinity"
  | S754_finite negative m e =>
      let '(s, k, n) := shortest m e in
      (if negative then "-" else "") +:+ format s k n
  end.

Definition has_prop (k : string) (ps : list (string * value)) : bool :=
  bool_decide (is_Some (lookup_prop k ps)).

(** Array.prototype.join. *)
Fixpoint join (sep : string) (parts : list string) : string :=
  match parts with
  | [] => ""
  | [p] => p
  | p :: rest => p +:+ sep +:+ join sep rest
  end.

Definition sequence {A} (rs : list (result A)) : result (list A) :=
  foldr (λ r acc, rbind r (λ a, rbind acc (λ l, Ok (a :: l)))) (Ok []) rs.

(** ToString, as a template literal or a computed property key applies it.
    A plain object prints as [[object Object]] through the inherited
    [toString], whatever its own [valueOf] is.  When an own property shadows
    [toString] (it is never a function here) the conversion skips it, gets
    no primitive from [valueOf] either (the own one is not a function, the
    inherited one returns the object) and raises [TypeError].  An array
    prints its elements joined by commas, [null] and [undefined] elements as
    the empty string. *)
Fixpoint to_string (v : value) : result string :=
  match v with
  | VUndefined => Ok "undefined"
  | VNull => Ok "null"
  | VBool true => Ok "true"
  | VBool false => Ok "false"
  | VNum n => Ok (number_to_string n)
  | VStr s => Ok s
  | VArr l =>
      rbind (sequence (map (λ e, match e with
                                 | VUndefined | VNull => Ok ""
                                 | _ => to_string e
                                 end) l))
            (λ parts, Ok (join "," parts))
  | VObj ps =>
      if has_prop "toString" ps
      then Throw TypeError
      else Ok "[object Object]"
  end.

(** *** JSON *)

(** The abstract syntax of a JSON text.  A number literal stands as the
    double it is read as: [1299.99] and [1299.990] are the same document,
    the literal [-0] is [JNum (-0)] and [1e400] is [JNum infinity]. *)
Inductive json : Type :=
| JNull
| JBool (b : bool)
| JNum (x : number)
| JStr (s : string)
| JArr (elems : list json)
| JObj (members : list (string * json)).

(** A text as [JSON.parse] sees it: the rendering of a JSON document
    (whatever its white space: [JSON.stringify(v)] and
    [JSON.stringify(v, null, 2)] render the same document), or a text that is
    not JSON at all (an empty or cut-off file, a foreign payload). *)
Inductive text : Type :=
| Rendered (doc : json)
| Invalid.

(** SerializeJSONProperty: [None] is the [undefined] that [JSON.stringify]
    returns for a value with no JSON form.  A property whose value has no
    JSON form is left out of its object, an array element with none becomes
    [null], and so does a number that is not finite; a finite number is
    written as Number::toString prints it, the negative zero as [0]. *)
Fixpoint serialize (v : value) : option json :=
  match v with
  | VUndefined => None
  | VNull => Some JNull
  | VBool b => Some (JBool b)
  | VNum x =>
      match classify x with
      | NaN | PInf | NInf => Some JNull
      | NZero => Some (JNum 0%float)
      | _ => Some (JNum x)
      end
  | VStr s => Some (JStr s)
  | VArr l => Some (JArr (map (λ e, default JNull (serialize e)) l))
  | VObj ps =>
      Some (JObj ((fix members (ps : list (string * value)) :=
                     match ps with
                     | [] => []
                     | (k, v) :: ps' =>
                         match serialize v with
                         | Some j => (k, j) :: members ps'
                         | None => members ps'
                         end
                     end) ps))
  end.

(** [JSON.stringify(v)]: the text, or [undefined]. *)
Definition stringify (v : value) : option text := Rendered <$> serialize v.

(** CreateDataProperty on a property list: an existing key keeps its place and
    takes the new value, a new key goes last. *)
Fixpoint set_prop (k : string) (v : value) (ps : list (string * value))
  : list (string * value) :=
  match ps with
  | [] => [(k, v)]
  | (k', v') :: ps' =>
      if String.eqb k k' then (k', v) :: ps' else (k', v') :: set_prop k v ps'
  end.

(** The value a JSON document denotes; a repeated member name overwrites. *)
Fixpoint revive (j : json) : value :=
  match j with
  | JNull => VNull
  | JBool b => VBool b
  | JNum x => VNum x
  | JStr s => VStr s
  | JArr l => VArr (map revive l)
  | JObj ms =>
      VObj ((fix build (ms : list (string * json)) (acc : list (string * value)) :=
               match ms with
               | [] => acc
               | (k, j) :: ms' => build ms' (set_prop k (revive j) acc)
               end) ms [])
  end.

(** [JSON.parse(t)]: [SyntaxError] on a text that is not JSON. *)
Definition parse (t : text) : result value :=
  match t with
  | Rendered j => Ok (revive j)
  | Invalid => Throw SyntaxError
  end.

(** A value that [JSON.parse] gives back as [JSON.stringify] got it: no
    [undefined], no [NaN], infinity or negative zero anywhere inside, and (as
    in every JavaScript object) no property name twice in one object. *)
Fixpoint representable (v : value) : bool :=
  match v with
  | VUndefined => false
  | VNull | VBool _ | VStr _ => true
  | VNum x =>
      match classify x with
      | NaN | PInf | NInf | NZero => false
      | _ => true
      end
  | VArr l => forallb representable l
  | VObj ps =>
      (fix all (ps : list (string * value)) : bool :=
         match ps with
         | [] => true
         | (k, v) :: ps' =>
             representable v && negb (has_prop k ps') && all ps'
         end) ps
  end.

(** What a value comes back as from [JSON.parse(JSON.stringify(v))], or from
    a place in an array that went through it ([null] where [v] has no JSON
    form). *)
Definition round_trip (v : value) : value := revive (default JNull (serialize v)).

(** What a property comes back as when its object went through
    [JSON.parse(JSON.stringify(o))]: a property with no JSON form is left
    out, and reads [undefined]. *)
Definition kept (v : value) : value :=
  match serialize v with
  | Some j => revive j
  | None => VUndefined
  end.

(** The local recursions of [serialize], [revive] and [representable], named. *)
Fixpoint serialize_members (ps : list (string * value)) : list (string * json) :=
  match ps with
  | [] => []
  | (k, v) :: ps' =>
      match serialize v with
      | Some j => (k, j) :: serialize_members ps'
      | None => serialize_members ps'
      end
  end.

Fixpoint revive_members (ms : list (string * json)) (acc : list (string * value))
  : list (string * value) :=
  match ms with
  | [] => acc
  | (k, j) :: ms' => revive_members ms' (set_prop k (revive j) acc)
  end.

Fixpoint representable_props (ps : list (string * value)) : bool :=
  match ps with
  | [] => true
  | (k, v) :: ps' =>
      representable v && negb (has_prop k ps') && representable_props ps'
  end.

End JS.

(** ** Statements with effects

    A method is a function from the state it may mutate to the state it
    leaves and either its value or what it threw.  A [throw] does not undo the
    effects made before it. *)

Module Eff.
Import JS.

Definition M (S A : Type) : Type := S → S * result A.

Definition ret {S A} (a : A) : M S A := λ s, (s, Ok a).

Definition bind {S A B} (m : M S A) (k : A → M S B) : M S B :=
  λ s, match m s with
       | (s', Ok a) => k a s'
       | (s', Throw e) => (s', Throw e)
       end.

Definition throw {S A} (e : exn) : M S A := λ s, (s, Throw e).

(** An expression that reads no state. *)
Definition pure_of {S A} (r : result A) : M S A := λ s, (s, r).

Definition gets {S A} (f : S → A) : M S A := λ s, (s, Ok (f s)).

Definition modify {S} (f : S → S) : M S unit := λ s, (f s, Ok tt).

(** [try { m } catch (e) { handler e }]. *)
Definition try_catch {S A} (m : M S A) (handler : exn → M S A) : M S A :=
  λ s, match m s with
       | (s', Ok a) => (s', Ok a)
       | (s', Throw e) => handler e s'
       end.

End Eff.

Notation "x <- m ;; k" := (Eff.bind m (λ x, k))
  (at level 100, m at next level, right associativity).
Notation "m ;;; k" := (Eff.bind m (λ _, k))
  (at level 100, right associativity).

(** ** config.js *)

Module Config.

Record exchange_config : Type := {
  name : string;
  type : string;
  durable : bool            (* options.durable *)
}.

Record rabbitmq_config : Type := {
  url : string;
  exchange : exchange_config;
  (** [queues]: role name to queue name, in the order the object lists them *)
  queues : list (string * string)
}.

(** [Object.values(cfg.queues)]. *)
Definition queue_names (cfg : rabbitmq_config) : list string :=
  map snd (queues cfg).

(** [cfg.queues.<role>]; a role the object does not have reads [undefined]. *)
Definition queue_of (cfg : rabbitmq_config) (role : string) : option string :=
  snd <$> List.find (λ p, String.eqb (fst p) role) (queues cfg).

(** The object the module exports. *)
Definition rabbitmq : rabbitmq_config := {|
  url := "amqp://localhost";
  exchange := {| name := "user.actions"; type := "fanout"; durable := true |};
  queues := [ ("analytics", "analytics.queue");
              ("notification", "notification.queue");
              ("audit", "audit.queue");
              ("cache", "cache.invalidation.queue") ]
|}.

End Config.

(** ** The broker

    The program talks to RabbitMQ through [amqplib]; neither is part of the
    repository.  The operations below are the broker contract the
    specification gives for them. *)

Module Broker.
Import JS Eff.

Record exchange : Type := {
  ex_type : string;
  ex_durable : bool
}.

(** A published message: the content buffer and the publish options. *)
Record message : Type := {
  content : text;
  persistent : bool;
  contentType : string
}.

Record queue : Type := {
  q_durable : bool;
  q_messages : list message       (* oldest first *)
}.

(** Modelled from the spec: the broker's state (section 3, Binding and
    Subscription Queue): declared exchanges, declared queues with the
    messages they hold, and the set of bindings (queue, exchange, routing
    key). *)
Record broker : Type := {
  exchanges : gmap string exchange;
  queues : gmap string queue;
  bindings : gset (string * string * string)
}.

Definition empty : broker :=
  {| exchanges := ∅; queues := ∅; bindings := ∅ |}.

(** Modelled from the spec: [declare(name, durable)] of section 4.1 for an
    exchange ([channel.assertExchange]): creates it, is a no-op when it exists
    with the same type and durability, and fails when it exists with other
    ones. *)
Definition assertExchange (name type : string) (durable : bool) : M broker unit :=
  λ b, match exchanges b !! name with
       | None =>
           ({| exchanges := <[name := {| ex_type := type; ex_durable := durable |}]> (exchanges b);
               queues := queues b;
               bindings := bindings b |}, Ok tt)
       | Some e =>
           if String.eqb (ex_type e) type && Bool.eqb (ex_durable e) durable
           then (b, Ok tt)
           else (b, Throw (ChannelError "PRECONDITION_FAILED"))
       end.

(** Modelled from the spec: [declareQueue(name, durable)] of section 6
    ([channel.assertQueue]), idempotent in the same way; a queue that exists
    keeps its messages. *)
Definition assertQueue (name : string) (durable : bool) : M broker unit :=
  λ b, match queues b !! name with
       | None =>
           ({| exchanges := exchanges b;
               queues := <[name := {| q_durable := durable; q_messages := [] |}]> (queues b);
               bindings := bindings b |}, Ok tt)
       | Some q =>
           if Bool.eqb (q_durable q) durable
           then (b, Ok tt)
           else (b, Throw (ChannelError "PRECONDITION_FAILED"))
       end.

(** Modelled from the spec: [bind(channelName, queueName)] of section 4.1
    ([channel.bindQueue]): establishes or reconfirms the binding; both ends
    must exist. *)
Definition bindQueue (q ex key : string) : M broker unit :=
  λ b, match queues b !! q, exchanges b !! ex with
       | Some _, Some _ =>
           ({| exchanges := exchanges b;
               queues := queues b;
               bindings := {[ (q, ex, key) ]} ∪ bindings b |}, Ok tt)
       | _, _ => (b, Throw (ChannelError "NOT_FOUND"))
       end.

(** Modelled from the spec: the queues a message published to exchange [ex]
    with routing key [key] goes to.  A fanout exchange ignores the key
    ("delivery is unconditional to every bound queue", section 4.1); any other
    type is routed as a direct exchange, by equality of the keys.  [None]: no
    such exchange. *)
Definition route (b : broker) (ex key : string) : option (gset string) :=
  e ← exchanges b !! ex;
  Some (set_map (λ bd : string * string * string, bd.1.1)
          (filter (λ bd : string * string * string,
                     bd.1.2 = ex ∧ (ex_type e = "fanout" ∨ bd.2 = key))
                  (bindings b))).

Definition enqueue (m : message) (q : queue) : queue :=
  {| q_durable := q_durable q; q_messages := q_messages q ++ [m] |}.

(** Modelled from the spec: [publish(channelName, event, durable)] of section
    4.1 ([channel.publish]): one copy to every queue the message is routed
    to.  A publish to an exchange that does not exist delivers nothing; the
    ChannelNotFound condition reaches the client as a channel error after the
    call has returned, so the call itself has no result to inspect. *)
Definition publish (ex key : string) (m : message) (b : broker) : broker :=
  match route b ex key with
  | None => b
  | Some targets =>
      {| exchanges := exchanges b;
         queues := map_imap (λ name q,
                      Some (if bool_decide (name ∈ targets) then enqueue m q else q))
                     (queues b);
         bindings := bindings b |}
  end.

(** The messages queue [name] holds ([[]] when it is not declared). *)
Definition messages (b : broker) (name : string) : list message :=
  default [] (q_messages <$> queues b !! name).

Definition bound (b : broker) (q ex : string) : Prop :=
  ∃ key, (q, ex, key) ∈ bindings b.

End Broker.

(** ** setup-exchange.js *)

Module Setup.
Import JS Eff Broker.

(** [for (const queue of queues) { assertQueue; bindQueue }]. *)
Fixpoint bind_all (ex : string) (queues : list string) : M broker unit :=
  match queues with
  | [] => ret tt
  | queue :: rest =>
      assertQueue queue true ;;;
      bindQueue queue ex "" ;;;
      bind_all ex rest
  end.

(** The [try] block of [setupExchange]: a [Throw] is what the [catch] reports
    before [process.exit(1)]. *)
Definition setupExchange (cfg : Config.rabbitmq_config) : M broker unit :=
  assertExchange (Config.name (Config.exchange cfg))
                 (Config.type (Config.exchange cfg))
                 (Config.durable (Config.exchange cfg)) ;;;
  bind_all (Config.name (Config.exchange cfg)) (Config.queue_names cfg).

End Setup.

(** ** action-publisher.js *)

Module ActionPublisher.
Import JS Eff Broker.

(** The two fields the constructor sets to [null] and [connect] fills in. *)
Record t : Type := {
  connection : option string;     (* the url connected to *)
  channel : option unit
}.

Definition new : t := {| connection := None; channel := None |}.

Definition connect (cfg : Config.rabbitmq_config) (this : t) : M broker t :=
  assertExchange (Config.name (Config.exchange cfg))
                 (Config.type (Config.exchange cfg))
                 (Config.durable (Config.exchange cfg)) ;;;
  ret {| connection := Some (Config.url cfg); channel := Some tt |}.

(** The record [publishAction] builds; [data = {}] replaces an argument that
    is [undefined] (left out), and nothing else. *)
Definition make_message (now_iso : string) (action userId data : value) : value :=
  VObj [ ("action", action);
         ("userId", userId);
         ("timestamp", VStr now_iso);
         ("data", match data with VUndefined => VObj [] | _ => data end) ].

(** [publishAction(action, userId, data = {})].  [now_iso] is what
    [new Date().toISOString()] returns at the call.  [this.channel.publish]
    raises [TypeError] on a publisher that never connected, and
    [Buffer.from] does on [undefined].  The template literal of the
    [console.log] after the publish converts [action] and [userId] to
    strings, which can raise; the record is returned after it. *)
Definition publishAction (cfg : Config.rabbitmq_config) (this : t)
    (now_iso : string) (action userId data : value) : M broker value :=
  let message := make_message now_iso action userId data in
  match channel this with
  | None => throw TypeError
  | Some _ =>
      match stringify message with
      | None => throw TypeError
      | Some buffer =>
          modify (publish (Config.name (Config.exchange cfg)) ""
                    {| content := buffer;
                       persistent := true;
                       contentType := "application/json" |}) ;;;
          _ <- pure_of (to_string action) ;;
          _ <- pure_of (to_string userId) ;;
          ret message
      end
  end.

End ActionPublisher.

(** ** The subscriber side of a channel

    The four [consume] methods register the same callback, up to the handler
    it calls:

      (msg) => { if (msg !== null) {
                   const action = JSON.parse(msg.content.toString());
                   handler(action);          // [await]ed in the audit consumer
                   this.channel.ack(msg); } }

    with [{ noAck: false }], so a delivery stays outstanding at the broker
    until it is acknowledged. *)

Module Subscriber.
Import JS Eff.

Record delivery : Type := {
  content : text;
  deliveryTag : N
}.

(** A consumer process: the fields of its object ([this]) and the deliveries
    of its channel that are not acknowledged yet. *)
Record consumer (L : Type) : Type := {
  this : L;
  unacked : gset N
}.
Arguments this {L} c.
Arguments unacked {L} c.

(** Runs a method of the consumer object inside the consumer process. *)
Definition on_this {L A} (m : M L A) : M (consumer L) A :=
  λ c, match m (this c) with
       | (l', r) => ({| this := l'; unacked := unacked c |}, r)
       end.

(** [this.channel.ack(msg)]. *)
Definition ack {L} (msg : delivery) : M (consumer L) unit :=
  modify (λ c, {| this := this c; unacked := unacked c ∖ {[ deliveryTag msg ]} |}).

(** The callback; [None] is the [null] the library passes when the broker
    cancels the consumer. *)
Definition on_message {L} (handler : value → M L unit) (msg : option delivery)
  : M (consumer L) unit :=
  match msg with
  | None => ret tt
  | Some msg =>
      action <- pure_of (parse (content msg)) ;;
      on_this (handler action) ;;;
      ack msg
  end.

(** The broker hands a message to the callback: the delivery is outstanding
    from then on. *)
Definition deliver {L} (callback : option delivery → M (consumer L) unit)
    (msg : delivery) : M (consumer L) unit :=
  modify (λ c, {| this := this c; unacked := {[ deliveryTag msg ]} ∪ unacked c |}) ;;;
  callback (Some msg).

End Subscriber.

(** ** consumers/analytics-consumer.js *)

Module AnalyticsConsumer.
Import JS Eff.

(** [this.stats], an object used as a map from counter name to count. *)
Definition initial_stats : gmap string N :=
  <["total" := 0%N]> (<["profile_update" := 0%N]> (<["purchase" := 0%N]>
    (<["login" := 0%N]> ∅))).

(** [o[k]++] on a counter object. *)
Definition increment (k : string) (stats : gmap string N) : gmap string N :=
  alter N.succ k stats.

(** [processAction(action)].  The template literals are evaluated for the
    exception they can raise; what they print is not kept. *)
Definition processAction (action : value) : M (gmap string N) unit :=
  kind <- pure_of (get action "action") ;;
  key <- pure_of (to_string kind) ;;
  has <- gets (λ stats, bool_decide (is_Some (stats !! key))) ;;
  (if has : bool then modify (increment key) else ret tt) ;;;
  modify (increment "total") ;;;
  userId <- pure_of (get action "userId") ;;
  _ <- pure_of (to_string userId) ;;
  timestamp <- pure_of (get action "timestamp") ;;
  _ <- pure_of (to_string timestamp) ;;
  _ <- pure_of (get action "data") ;;
  ret tt.

Definition consume := Subscriber.on_message processAction.

End AnalyticsConsumer.

(** ** consumers/notification-consumer.js *)

Module NotificationConsumer.
Import JS Eff.

(** What the consumer sends, one constructor per line it prints. *)
Inductive notification : Type :=
| LoginAlertEmail (userId : string)
| LoginPush (device : string)
| PurchaseConfirmationEmail
| PurchaseOrder (productId amount : string)
| PurchaseSms
| ProfileChangeEmail (field : string)
| SecurityAlert
| NotConfigured (action : string).

Definition send (n : notification) : M (list notification) unit :=
  modify (λ sent, sent ++ [n]).

Definition sendLoginAlert (action : value) : M (list notification) unit :=
  userId <- pure_of (rbind (get action "userId") to_string) ;;
  send (LoginAlertEmail userId) ;;;
  device <- pure_of (rbind (rbind (get action "data") (λ d, get d "device")) to_string) ;;
  send (LoginPush device).

Definition sendPurchaseConfirmation (action : value) : M (list notification) unit :=
  send PurchaseConfirmationEmail ;;;
  productId <- pure_of (rbind (rbind (get action "data") (λ d, get d "productId")) to_string) ;;
  amount <- pure_of (rbind (rbind (get action "data") (λ d, get d "amount")) to_string) ;;
  send (PurchaseOrder productId amount) ;;;
  send PurchaseSms.

Definition sendProfileChangeNotification (action : value) : M (list notification) unit :=
  field <- pure_of (rbind (rbind (get action "data") (λ d, get d "field")) to_string) ;;
  send (ProfileChangeEmail field) ;;;
  send SecurityAlert.

Definition sendNotifications (action : value) : M (list notification) unit :=
  kind <- pure_of (get action "action") ;;
  _ <- pure_of (to_string kind) ;;
  if strict_eq_str kind "login" then sendLoginAlert action
  else if strict_eq_str kind "purchase" then sendPurchaseConfirmation action
  else if strict_eq_str kind "profile_update" then sendProfileChangeNotification action
  else
    printed <- pure_of (to_string kind) ;;
    send (NotConfigured printed).

Definition consume := Subscriber.on_message sendNotifications.

End NotificationConsumer.

(** ** consumers/cache-invalidator.js *)

Module CacheInvalidator.
Import JS Eff.

(** A cache the invalidator clears, with the identifier as it is printed into
    the cleared keys ([user:<id>:profile], [product:<id>:details]). *)
Inductive target : Type :=
| UserCache (userId : string)
| ProductCache (productId : string).

(** [this.cacheStats], and the invalidations made so far, oldest first. *)
Record state : Type := {
  invalidated : N;
  skipped : N;
  cleared : list target
}.

Definition initial : state :=
  {| invalidated := 0; skipped := 0; cleared := [] |}.

Definition invalidateUserCache (userId : value) : M state unit :=
  id <- pure_of (to_string userId) ;;
  modify (λ s, {| invalidated := N.succ (invalidated s);
                  skipped := skipped s;
                  cleared := cleared s ++ [UserCache id] |}).

Definition invalidateProductCache (productId : value) : M state unit :=
  id <- pure_of (to_string productId) ;;
  modify (λ s, {| invalidated := N.succ (invalidated s);
                  skipped := skipped s;
                  cleared := cleared s ++ [ProductCache id] |}).

Definition skip : M state unit :=
  modify (λ s, {| invalidated := invalidated s;
                  skipped := N.succ (skipped s);
                  cleared := cleared s |}).

(** [invalidateCache(action)]: the [switch] in the order of its [case]s. *)
Definition invalidateCache (action : value) : M state unit :=
  kind <- pure_of (get action "action") ;;
  _ <- pure_of (to_string kind) ;;
  if strict_eq_str kind "profile_update" then
    userId <- pure_of (get action "userId") ;;
    invalidateUserCache userId
  else if strict_eq_str kind "purchase" then
    userId <- pure_of (get action "userId") ;;
    invalidateUserCache userId ;;;
    productId <- pure_of (rbind (get action "data") (λ d, get d "productId")) ;;
    invalidateProductCache productId
  else if strict_eq_str kind "login" then skip
  else skip.

Definition consume := Subscriber.on_message invalidateCache.

End CacheInvalidator.

(** ** consumers/audit-consumer.js *)

Module AuditConsumer.
Import JS Eff.

(** How a failing [fs.writeFile] leaves the file.  The call opens the file
    for writing, which empties it, and then writes: a failure to open leaves
    the file as it was, a later failure leaves it empty or cut off. *)
Inductive damage : Type :=
| Untouched
| CutOff.

(** What the environment decides during one call of [logAction]. *)
Record env : Type := {
  now : N;                                  (* Date.now() *)
  random : string;                          (* Math.random().toString(36) *)
  read_fault : option string;               (* fs.readFile fails with this code *)
  write_fault : option (string * damage)    (* fs.writeFile fails with this code *)
}.

(** The file [this.logFile] names ([None]: there is no such file) and the
    lines written to the error console. *)
Record store : Type := {
  logFile : option text;
  stderr : list string
}.

(** [error.message], as far as the model tells messages apart. *)
Definition message_of (e : exn) : string :=
  match e with
  | TypeError => "TypeError"
  | SyntaxError => "SyntaxError"
  | SystemError code => code
  | ChannelError reply => reply
  end.

(** [fs.readFile(this.logFile, 'utf8')]. *)
Definition readFile (E : env) : M store text :=
  λ s, match read_fault E with
       | Some code => (s, Throw (SystemError code))
       | None =>
           match logFile s with
           | None => (s, Throw (SystemError "ENOENT"))
           | Some t => (s, Ok t)
           end
       end.

(** [fs.writeFile(this.logFile, data)]. *)
Definition writeFile (E : env) (data : text) : M store unit :=
  λ s, match write_fault E with
       | None => ({| logFile := Some data; stderr := stderr s |}, Ok tt)
       | Some (code, Untouched) => (s, Throw (SystemError code))
       | Some (code, CutOff) =>
           ({| logFile := Some Invalid; stderr := stderr s |}, Throw (SystemError code))
       end.

(** [console.error('Failed to write to audit log file:', error.message)]. *)
Definition console_error (line : string) : M store unit :=
  modify (λ s, {| logFile := logFile s; stderr := stderr s ++ [line] |}).

(** [generateLogId()]: [AUDIT-<ms>-<nine characters of the random number in
    base 36, after the leading "0.">]. *)
Definition generateLogId (E : env) : string :=
  "AUDIT-" +:+ NilZero.string_of_uint (N.to_uint (now E)) +:+ "-"
  +:+ String.substring 2 9 (random E).

(** [getComplianceFlags(action)]. *)
Definition getComplianceFlags (action : value) : result (list string) :=
  let flags := ["LOGGED"] in
  rbind (get action "action") (λ kind,
  let flags := if strict_eq_str kind "purchase"
               then flags ++ ["FINANCIAL_RECORD"] else flags in
  let flags := if strict_eq_str kind "profile_update"
               then flags ++ ["PII_CHANGE"; "GDPR"] else flags in
  let flags := if strict_eq_str kind "login"
               then flags ++ ["SECURITY_EVENT"] else flags in
  Ok flags).

(** [logs.push(entry)]: only an array has [push]. *)
Definition push (logs entry : value) : result value :=
  match logs with
  | VArr l => Ok (VArr (l ++ [entry]))
  | _ => Throw TypeError
  end.

(** The two statements inside the inner [try] of [writeToFile]: read the file
    and parse it. *)
Definition readParsed (E : env) : M store value :=
  data <- readFile E ;;
  pure_of (parse data).

(** The inner [try] with its empty [catch]:
    [let logs = []; try { logs = (read and parse) } catch (err) {}]. *)
Definition readLogs (E : env) : M store value :=
  try_catch (readParsed E) (λ _, ret (VArr [])).

(** [writeToFile(entry)]. *)
Definition writeToFile (E : env) (entry : value) : M store unit :=
  try_catch
    (logs <- readLogs E ;;
     logs <- pure_of (push logs entry) ;;
     match stringify logs with
     | None => throw TypeError
     | Some data => writeFile E data
     end)
    (λ error, console_error (message_of error)).

(** The object literal [auditEntry] of [logAction]. *)
Definition auditEntry (logId : string) (action userId timestamp data : value)
    (compliance : list string) : value :=
  VObj [ ("logId", VStr logId);
         ("action", action);
         ("userId", userId);
         ("timestamp", timestamp);
         ("data", data);
         ("compliance", VArr (map VStr compliance)) ].

(** [logAction(action)]. *)
Definition logAction (E : env) (action : value) : M store unit :=
  kind <- pure_of (get action "action") ;;
  _ <- pure_of (to_string kind) ;;
  let logId := generateLogId E in
  userId <- pure_of (get action "userId") ;;
  timestamp <- pure_of (get action "timestamp") ;;
  data <- pure_of (get action "data") ;;
  compliance <- pure_of (getComplianceFlags action) ;;
  writeToFile E (auditEntry logId kind userId timestamp data compliance).

Definition consume (E : env) := Subscriber.on_message (logAction E).

End AuditConsumer.

(** ** The four consumer roles side by side *)

Module Consumers.
Import JS Eff Subscriber.

Inductive role : Type :=
| Analytics
| Notification
| Audit
| Cache.

(** The fields of each consumer object. *)
Definition fields (r : role) : Type :=
  match r with
  | Analytics => gmap string N
  | Notification => list NotificationConsumer.notification
  | Audit => AuditConsumer.store
  | Cache => CacheInvalidator.state
  end.

(** The method each callback hands the parsed message to. *)
Definition handler (E : AuditConsumer.env) (r : role) : value → M (fields r) unit :=
  match r with
  | Analytics => AnalyticsConsumer.processAction
  | Notification => NotificationConsumer.sendNotifications
  | Audit => AuditConsumer.logAction E
  | Cache => CacheInvalidator.invalidateCache
  end.

(** The callback each [consume] registers. *)
Definition consume (E : AuditConsumer.env) (r : role)
  : option delivery → M (consumer (fields r)) unit :=
  match r with
  | Analytics => AnalyticsConsumer.consume
  | Notification => NotificationConsumer.consume
  | Audit => AuditConsumer.consume E
  | Cache => CacheInvalidator.consume
  end.

End Consumers.

(** ** The [connect] methods of the consumers *)

Module ConsumerConnect.
Import JS Eff Broker Consumers.

(** The property of [config.rabbitmq.queues] each consumer reads. *)
Definition role_key (r : role) : string :=
  match r with
  | Analytics => "analytics"
  | Notification => "notification"
  | Audit => "audit"
  | Cache => "cache"
  end.

(** [connect()] of a consumer: after the connection and the channel,
    [assertQueue(config.rabbitmq.queues.<role>, { durable: true })].  For a
    role the configuration does not list the library sends the empty name
    (for which a real broker makes up a name; the model declares the queue
    under the empty name). *)
Definition connect (cfg : Config.rabbitmq_config) (r : role) : M broker unit :=
  assertQueue (default "" (Config.queue_of cfg (role_key r))) true.

End ConsumerConnect.

(** ** Sample events

    An event as a consumer parses it, in the shape the publisher gives it. *)
Definition event (action userId : string) (data : JS.value) : JS.value :=
  JS.VObj [ ("action", JS.VStr action);
            ("userId", JS.VStr userId);
            ("timestamp", JS.VStr "2024-05-01T10:00:00.000Z");
            ("data", data) ].

(** * Properties *)

(** ** JSON: what survives [JSON.stringify] and [JSON.parse] *)

Section JsonFacts.
Import JS.

Lemma serialize_obj ps : serialize (VObj ps) = Some (JObj (serialize_members ps)).
Proof. reflexivity. Qed.

Lemma revive_obj ms : revive (JObj ms) = VObj (revive_members ms []).
Proof. reflexivity. Qed.

Lemma representable_obj ps : representable (VObj ps) = representable_props ps.
Proof. reflexivity. Qed.

(** Induction on values, with the hypothesis for every element of an array
    and every property value of an object. *)
Lemma value_nested_ind (P : value → Prop) :
  P VUndefined → P VNull → (∀ b, P (VBool b)) → (∀ n, P (VNum n)) →
  (∀ s, P (VStr s)) →
  (∀ l, Forall P l → P (VArr l)) →
  (∀ ps, Forall (λ p, P p.2) ps → P (VObj ps)) →
  ∀ v, P v.
Proof.
  intros Hu Hn Hb Hnum Hs Ha Ho.
  fix IH 1. intros [ | | b | n | s | l | ps].
  - exact Hu.
  - exact Hn.
  - apply Hb.
  - apply Hnum.
  - apply Hs.
  - apply Ha. induction l as [|x l IHl]; constructor; [apply IH | exact IHl].
  - apply Ho. induction ps as [|[k x] ps IHps]; constructor; [apply IH | exact IHps].
Qed.

Lemma json_nested_ind (P : json → Prop) :
  P JNull → (∀ b, P (JBool b)) → (∀ z, P (JNum z)) → (∀ s, P (JStr s)) →
  (∀ l, Forall P l → P (JArr l)) →
  (∀ ms, Forall (λ m, P m.2) ms → P (JObj ms)) →
  ∀ j, P j.
Proof.
  intros Hn Hb Hnum Hs Ha Ho.
  fix IH 1. intros [ | b | z | s | l | ms].
  - exact Hn.
  - apply Hb.
  - apply Hnum.
  - apply Hs.
  - apply Ha. induction l as [|x l IHl]; constructor; [apply IH | exact IHl].
  - apply Ho. induction ms as [|[k x] ms IHms]; constructor; [apply IH | exact IHms].
Qed.

Lemma has_prop_false k ps : has_prop k ps = false ↔ lookup_prop k ps = None.
Proof.
  unfold has_prop. rewrite bool_decide_eq_false, <- eq_None_not_Some. reflexivity.
Qed.

Lemma lookup_prop_app k ps qs :
  lookup_prop k (ps ++ qs) =
  match lookup_prop k ps with Some v => Some v | None => lookup_prop k qs end.
Proof.
  induction ps as [|[k' v] ps IH]; simpl; [reflexivity|].
  destruct (String.eqb k k'); [reflexivity | exact IH].
Qed.

Lemma lookup_prop_None_keys k ps : lookup_prop k ps = None ↔ k ∉ map fst ps.
Proof.
  induction ps as [|[k' v] ps IH]; simpl.
  - split; [intros _; apply not_elem_of_nil | reflexivity].
  - rewrite not_elem_of_cons. destruct (String.eqb_spec k k') as [->|Hne].
    + split; [discriminate | intros [? _]; congruence].
    + rewrite IH. tauto.
Qed.

Lemma set_prop_fresh k v ps :
  lookup_prop k ps = None → set_prop k v ps = ps ++ [(k, v)].
Proof.
  induction ps as [|[k' v'] ps IH]; simpl; [reflexivity|].
  destruct (String.eqb k k'); [discriminate|].
  intros H. rewrite IH by exact H. reflexivity.
Qed.

Lemma lookup_prop_set_prop k' k v ps :
  lookup_prop k' (set_prop k v ps) =
  if String.eqb k' k then Some v else lookup_prop k' ps.
Proof.
  induction ps as [|[k0 v0] ps IH]; simpl; [reflexivity|].
  destruct (String.eqb_spec k k0) as [->|Hk]; simpl.
  - destruct (String.eqb k' k0); reflexivity.
  - rewrite IH. destruct (String.eqb_spec k' k0) as [->|Hk'].
    + destruct (String.eqb_spec k0 k); [congruence | reflexivity].
    + reflexivity.
Qed.

Lemma revive_members_fresh ms : ∀ acc,
  NoDup (map fst ms) →
  (∀ k, k ∈ map fst ms → lookup_prop k acc = None) →
  revive_members ms acc = acc ++ map (λ m, (m.1, revive m.2)) ms.
Proof.
  induction ms as [|[k j] ms IH]; intros acc Hnd Hfresh; simpl.
  - symmetry. apply app_nil_r.
  - apply NoDup_cons in Hnd as [Hk Hnd].
    rewrite set_prop_fresh by (apply Hfresh; simpl; left).
    rewrite IH; [rewrite <- app_assoc; reflexivity | exact Hnd |].
    intros k' Hk'. rewrite lookup_prop_app.
    rewrite Hfresh by (simpl; right; exact Hk'). simpl.
    destruct (String.eqb_spec k' k) as [->|_]; [contradiction | reflexivity].
Qed.

(** Serializing the properties of a representable object drops none of them,
    and reviving each member gives the property back. *)
Lemma serialize_members_representable ps :
  Forall (λ p, representable p.2 = true →
               ∃ j, serialize p.2 = Some j ∧ revive j = p.2) ps →
  representable_props ps = true →
  map fst (serialize_members ps) = map fst ps ∧
  map (λ m, (m.1, revive m.2)) (serialize_members ps) = ps ∧
  NoDup (map fst ps).
Proof.
  induction 1 as [|[k v] ps Hv _ IH]; simpl.
  - intros _. repeat split. constructor.
  - rewrite !andb_true_iff, negb_true_iff, has_prop_false.
    intros [[Hr Hk] Hps]. simpl in Hv. destruct (Hv Hr) as (j & Hs & Hj).
    rewrite Hs. simpl.
    destruct (IH Hps) as (Hkeys & Hvals & Hnd). rewrite Hkeys, Hvals, Hj.
    repeat split. constructor; [|exact Hnd].
    apply lookup_prop_None_keys. exact Hk.
Qed.

Lemma serialize_elements_pointwise l :
  Forall (λ x, representable x = true →
               ∃ j, serialize x = Some j ∧ revive j = x) l →
  forallb representable l = true →
  map revive (map (λ e, default JNull (serialize e)) l) = l.
Proof.
  induction 1 as [|x l Hx _ IHl]; simpl; [reflexivity|].
  rewrite andb_true_iff. intros [Hrx Hrl].
  destruct (Hx Hrx) as (j & Hs & Hj). rewrite Hs. simpl.
  rewrite Hj, (IHl Hrl). reflexivity.
Qed.

(** A representable value comes back unchanged from [JSON.stringify] followed
    by [JSON.parse]. *)
Lemma serialize_revive v :
  representable v = true → ∃ j, serialize v = Some j ∧ revive j = v.
Proof.
  induction v as [ | | b | n | s | l IH | ps IH] using value_nested_ind;
    simpl; intros Hr; try discriminate; try (eexists; split; reflexivity).
  - destruct (classify n); try discriminate; eexists; split; reflexivity.
  - eexists; split; [reflexivity|]. simpl. f_equal.
    apply serialize_elements_pointwise; assumption.
  - change (representable_props ps = true) in Hr.
    eexists; split; [apply serialize_obj|]. rewrite revive_obj. f_equal.
    destruct (serialize_members_representable ps IH Hr) as (Hkeys & Hvals & Hnd).
    rewrite revive_members_fresh; [exact Hvals | rewrite Hkeys; exact Hnd |].
    reflexivity.
Qed.

Lemma representable_set_prop k v ps :
  representable v = true → representable_props ps = true →
  representable_props (set_prop k v ps) = true.
Proof.
  intros Hv. induction ps as [|[k0 v0] ps IH]; simpl.
  - intros _. rewrite Hv. reflexivity.
  - rewrite !andb_true_iff, negb_true_iff, has_prop_false.
    intros [[Hv0 Hk0] Hps]. destruct (String.eqb_spec k k0) as [->|Hk]; simpl.
    + rewrite Hv, Hps. apply has_prop_false in Hk0. rewrite Hk0. reflexivity.
    + rewrite Hv0, (IH Hps), !andb_true_r, andb_true_l, negb_true_iff, has_prop_false.
      rewrite lookup_prop_set_prop.
      destruct (String.eqb_spec k0 k); [congruence | exact Hk0].
Qed.

Lemma representable_revive_members ms : ∀ acc,
  Forall (λ m, representable (revive m.2) = true) ms →
  representable_props acc = true →
  representable_props (revive_members ms acc) = true.
Proof.
  induction ms as [|[k j] ms IH]; intros acc Hms Hacc; simpl; [exact Hacc|].
  apply Forall_cons in Hms as [Hj Hms].
  apply IH; [exact Hms|]. apply representable_set_prop; assumption.
Qed.

(** Whatever [JSON.stringify] wrote parses to a representable value.  (Not
    every JSON text does: [1e400] parses to [Infinity] and [-0] to the
    negative zero.) *)
Lemma round_trip_representable v : representable (round_trip v) = true.
Proof.
  unfold round_trip.
  induction v as [ | | b | n | s | l IH | ps IH] using value_nested_ind;
    try reflexivity.
  - simpl. destruct (classify n) eqn:Hn; simpl; rewrite ?Hn; reflexivity.
  - simpl. induction IH as [|x l Hx _ IHl]; simpl; [reflexivity|].
    rewrite Hx. exact IHl.
  - rewrite serialize_obj. simpl default. rewrite revive_obj, representable_obj.
    apply representable_revive_members; [|reflexivity].
    induction IH as [|[k x] ps Hx _ IHps]; simpl; [constructor|].
    simpl in Hx. destruct (serialize x); [constructor; assumption | exact IHps].
Qed.

Lemma round_trip_all_representable l :
  forallb representable (map round_trip l) = true.
Proof.
  induction l as [|x l IH]; simpl; [reflexivity|].
  rewrite round_trip_representable. exact IH.
Qed.

Lemma serialize_element v : representable v = true → round_trip v = v.
Proof.
  intros Hv. unfold round_trip.
  destruct (serialize_revive v Hv) as (j & -> & Hj). exact Hj.
Qed.

Lemma kept_representable v : representable v = true → kept v = v.
Proof.
  intros Hv. unfold kept. destruct (serialize_revive v Hv) as (j & -> & Hj). exact Hj.
Qed.

(** A property read off a representable value is missing or representable. *)
Lemma get_representable (o : value) (k : string) (v : value) :
  representable o = true → get o k = Ok v → v = VUndefined ∨ representable v = true.
Proof.
  intros Hrep.
  destruct o as [ | | b | n | s | l | ps]; simpl;
    try discriminate; try (intros [= <-]; left; reflexivity).
  change (representable_props ps = true) in Hrep.
  intros [= <-]. induction ps as [|[k' v'] ps IH]; simpl; [left; reflexivity|].
  simpl in Hrep. rewrite !andb_true_iff in Hrep. destruct Hrep as [[Hv' _] Hps].
  destruct (String.eqb k k'); [right; exact Hv' | apply IH, Hps].
Qed.

Lemma kept_get (o : value) (k : string) (v : value) :
  representable o = true → get o k = Ok v → kept v = v.
Proof.
  intros Hrep Hget. destruct (get_representable o k v Hrep Hget) as [-> | Hv];
    [reflexivity | apply kept_representable, Hv].
Qed.

Lemma serialize_elements l :
  forallb representable l = true → map round_trip l = l.
Proof.
  induction l as [|x l IH]; simpl; [reflexivity|].
  rewrite andb_true_iff. intros [Hx Hl].
  rewrite serialize_element by exact Hx. f_equal. apply IH, Hl.
Qed.

(** The array [JSON.stringify] writes, parsed again. *)
Lemma revive_serialized_elements l :
  map revive (map (λ e, default JNull (serialize e)) l) = map round_trip l.
Proof. apply map_map. Qed.

(** Number::toString at the edges of its layout: a fraction, the two zeros,
    the first number printed with an exponent on either side, the largest
    integer printed in full, a number with seventeen digits, the least and
    the greatest double. *)
Example number_to_string_layouts :
  map number_to_string
    [1299.99; 0; -0; 1e21; 123456789012345680000; 0.000001; 1e-7; -1.5e-7;
     0.30000000000000004; 5e-324; 1.7976931348623157e308]%float
  = ["1299.99"; "0"; "0"; "1e+21"; "123456789012345680000"; "0.000001"; "1e-7";
     "-1.5e-7"; "0.30000000000000004"; "5e-324"; "1.7976931348623157e+308"]
  ∧ map number_to_string [nan; infinity; neg_infinity]
    = ["NaN"; "Infinity"; "-Infinity"].
Proof. vm_compute. split; reflexivity. Qed.

(** An object prints through the inherited [toString] unless an own property
    shadows it; an own [valueOf] makes no difference. *)
Example to_string_objects :
  to_string (VObj [("valueOf", VNum 1%float)]) = Ok "[object Object]"
  ∧ to_string (VObj [("toString", VNum 1%float)]) = Throw TypeError
  ∧ to_string (VArr [VNum 1.5%float; VNull; VObj []; VArr [VStr "a"; VUndefined]])
    = Ok "1.5,,[object Object],a,".
Proof. vm_compute. repeat split. Qed.

End JsonFacts.

(** ** Stepping through a method *)

Ltac eff_unfold :=
  unfold Eff.bind, Eff.pure_of, Eff.ret, Eff.modify, Eff.gets, Eff.throw,
    Eff.try_catch, JS.rbind in *.

Ltac eff_step := eff_unfold; simpl.

(** ** Audit: compliance flags *)

Section ComplianceFlags.
Import JS AuditConsumer.

(** C3.  [getComplianceFlags] reads nothing but the action kind of its
    argument, and returns [LOGGED, SECURITY_EVENT] for [login],
    [LOGGED, FINANCIAL_RECORD] for [purchase], [LOGGED, PII_CHANGE, GDPR] for
    [profile_update] and [LOGGED] alone for every other kind (a string or
    not). *)
Theorem getComplianceFlags_by_kind (action kind : value) :
  get action "action" = Ok kind →
  getComplianceFlags action =
    Ok (if strict_eq_str kind "login" then ["LOGGED"; "SECURITY_EVENT"]
        else if strict_eq_str kind "purchase" then ["LOGGED"; "FINANCIAL_RECORD"]
        else if strict_eq_str kind "profile_update" then ["LOGGED"; "PII_CHANGE"; "GDPR"]
        else ["LOGGED"]).
Proof.
  intros Hkind. unfold getComplianceFlags. rewrite Hkind. simpl.
  destruct kind as [ | | b | n | s | l | ps]; try reflexivity. simpl.
  destruct (String.eqb_spec s "purchase") as [->|_]; [reflexivity|].
  destruct (String.eqb_spec s "profile_update") as [->|_]; [reflexivity|].
  destruct (String.eqb s "login"); reflexivity.
Qed.

Lemma getComplianceFlags_by_kind_witness :
  getComplianceFlags (event "purchase" "bob456" (VObj [])) =
    Ok ["LOGGED"; "FINANCIAL_RECORD"]
  ∧ getComplianceFlags (event "signup" "carol" (VObj [])) = Ok ["LOGGED"].
Proof.
  split.
  - apply (getComplianceFlags_by_kind (event "purchase" "bob456" (VObj []))
             (VStr "purchase")). reflexivity.
  - apply (getComplianceFlags_by_kind (event "signup" "carol" (VObj []))
             (VStr "signup")). reflexivity.
Defined.

End ComplianceFlags.

(** ** Analytics: counters *)

Section AnalyticsCounters.
Import JS AnalyticsConsumer.

Lemma increment_lookup k k' (stats : gmap string N) :
  increment k stats !! k' =
  if decide (k = k') then N.succ <$> stats !! k' else stats !! k'.
Proof.
  unfold increment. rewrite lookup_alter.
  destruct (decide (k = k')) as [->|]; reflexivity.
Qed.

(** For an event whose kind prints as [key], and whose [userId] and
    [timestamp] print at all, [processAction] bumps the counter named [key]
    when the object has one, and then [total]. *)
Lemma processAction_run (action kind userId timestamp : value)
    (key u t : string) (stats : gmap string N) :
  get action "action" = Ok kind → to_string kind = Ok key →
  get action "userId" = Ok userId → to_string userId = Ok u →
  get action "timestamp" = Ok timestamp → to_string timestamp = Ok t →
  processAction action stats =
    (increment "total"
       (if bool_decide (is_Some (stats !! key)) then increment key stats else stats),
     Ok tt).
Proof.
  intros Hk Hkey Hu Hus Ht Hts. unfold processAction. eff_unfold.
  rewrite Hk, Hkey.
  assert (Hd : ∃ d, get action "data" = Ok d).
  { destruct action; try discriminate; simpl; eauto. }
  destruct Hd as [d Hd].
  destruct (bool_decide (is_Some (stats !! key))); simpl;
    rewrite Hu, Hus, Ht, Hts, Hd; reflexivity.
Qed.

(** X1.  A kind other than the counter name [total]: [total] goes up by one,
    the counter of a kind that has one goes up by one, and nothing else
    moves. *)
Lemma processAction_counts (action kind userId timestamp : value)
    (key u t : string) (stats : gmap string N) (n : N) :
  get action "action" = Ok kind → to_string kind = Ok key →
  get action "userId" = Ok userId → to_string userId = Ok u →
  get action "timestamp" = Ok timestamp → to_string timestamp = Ok t →
  key ≠ "total" → stats !! "total" = Some n →
  ∃ stats', processAction action stats = (stats', Ok tt) ∧
    stats' !! "total" = Some (n + 1)%N ∧
    stats' !! key = N.succ <$> stats !! key ∧
    ∀ k, k ≠ "total" → k ≠ key → stats' !! k = stats !! k.
Proof.
  intros Hk Hkey Hu Hus Ht Hts Hne Htot.
  eexists. split; [eapply processAction_run; eassumption|].
  repeat split.
  - rewrite increment_lookup. rewrite decide_True by reflexivity.
    case_bool_decide.
    + rewrite increment_lookup, decide_False by exact Hne.
      rewrite Htot. simpl. f_equal. lia.
    + rewrite Htot. simpl. f_equal. lia.
  - rewrite increment_lookup, decide_False by congruence.
    case_bool_decide as Hsome.
    + rewrite increment_lookup, decide_True by reflexivity. reflexivity.
    + apply eq_None_not_Some in Hsome. rewrite Hsome. reflexivity.
  - intros k Hk1 Hk2. rewrite increment_lookup, decide_False by congruence.
    case_bool_decide; [|reflexivity].
    rewrite increment_lookup, decide_False by congruence. reflexivity.
Qed.

(** C5.  An event whose kind is the string [total] names the [total] counter
    itself: [hasOwnProperty] finds it, the per-kind increment hits [total],
    and the unconditional increment hits it again.  One such event moves
    [total] from 0 to 2. *)
Theorem processAction_kind_total_counts_twice :
  (processAction (event "total" "alice123" (VObj [])) initial_stats).2 = Ok tt
  ∧ (processAction (event "total" "alice123" (VObj [])) initial_stats).1 !! "total"
    = Some 2%N.
Proof. split; vm_compute; reflexivity. Qed.

End AnalyticsCounters.

(** ** Cache invalidator: what each kind clears *)

Section CachePolicy.
Import JS CacheInvalidator.

(** Whatever [invalidateCache] does, and whether it returns or throws, the
    [invalidated] counter has grown by the number of invalidations made and
    the [skipped] counter by at most one. *)
Lemma invalidateUserCache_counts (userId : value) (s s' : state) r :
  invalidateUserCache userId s = (s', r) →
  ∃ new, cleared s' = cleared s ++ new ∧
         invalidated s' = (invalidated s + N.of_nat (length new))%N.
Proof.
  unfold invalidateUserCache. eff_unfold.
  destruct (to_string userId); intros [= <- <-]; simpl.
  - eexists [_]. split; [reflexivity | simpl; lia].
  - exists []. split; [symmetry; apply app_nil_r | simpl; lia].
Qed.

Lemma invalidateProductCache_counts (productId : value) (s s' : state) r :
  invalidateProductCache productId s = (s', r) →
  ∃ new, cleared s' = cleared s ++ new ∧
         invalidated s' = (invalidated s + N.of_nat (length new))%N.
Proof.
  unfold invalidateProductCache. eff_unfold.
  destruct (to_string productId); intros [= <- <-]; simpl.
  - eexists [_]. split; [reflexivity | simpl; lia].
  - exists []. split; [symmetry; apply app_nil_r | simpl; lia].
Qed.

Lemma invalidateCache_counts (action : value) (s s' : state) r :
  invalidateCache action s = (s', r) →
  ∃ new, cleared s' = cleared s ++ new ∧
         invalidated s' = (invalidated s + N.of_nat (length new))%N.
Proof.
  assert (Hnone : ∃ new : list target, cleared s = cleared s ++ new ∧
            invalidated s = (invalidated s + N.of_nat (length new))%N).
  { exists []. split; [symmetry; apply app_nil_r | simpl; lia]. }
  unfold invalidateCache, skip. eff_unfold.
  destruct (get action "action") as [kind|]; [|intros [= <- <-]; exact Hnone].
  destruct (to_string kind); [|intros [= <- <-]; exact Hnone].
  destruct (strict_eq_str kind "profile_update").
  { destruct (get action "userId") as [u|]; [|intros [= <- <-]; exact Hnone].
    apply invalidateUserCache_counts. }
  destruct (strict_eq_str kind "purchase").
  { destruct (get action "userId") as [u|]; [|intros [= <- <-]; exact Hnone].
    destruct (invalidateUserCache u s) as [s1 [[]|e]] eqn:Hu;
      apply invalidateUserCache_counts in Hu as (new1 & Hc1 & Hi1).
    - destruct (match get action "data" with
                | Ok a => get a "productId" | Throw e => Throw e end) as [p|].
      + intros Hp. apply invalidateProductCache_counts in Hp as (new2 & Hc2 & Hi2).
        exists (new1 ++ new2). rewrite Hc2, Hc1, Hi2, Hi1, length_app, app_assoc.
        split; [reflexivity | lia].
      + intros [= <- <-]. eauto.
    - intros [= <- <-]. eauto. }
  destruct (strict_eq_str kind "login"); intros [= <- <-]; exact Hnone.
Qed.

(** C4, as the code has it.  [login] clears nothing and counts one skip;
    [profile_update] clears the user cache; [purchase] clears the user cache
    and then the product cache under whatever [data.productId] reads, the
    [undefined] of a missing [productId] included, and returns normally when
    [data] is there; every invalidation made is counted once in
    [invalidated]. *)
Theorem invalidateCache_policy (action : value) (s : state) :
  (get action "action" = Ok (VStr "login") →
     invalidateCache action s =
       ({| invalidated := invalidated s;
           skipped := N.succ (skipped s);
           cleared := cleared s |}, Ok tt))
  ∧ (∀ userId id,
       get action "action" = Ok (VStr "profile_update") →
       get action "userId" = Ok userId → to_string userId = Ok id →
       invalidateCache action s =
         ({| invalidated := N.succ (invalidated s);
             skipped := skipped s;
             cleared := cleared s ++ [UserCache id] |}, Ok tt))
  ∧ (∀ userId id data productId pid,
       get action "action" = Ok (VStr "purchase") →
       get action "userId" = Ok userId → to_string userId = Ok id →
       get action "data" = Ok data →
       get data "productId" = Ok productId → to_string productId = Ok pid →
       invalidateCache action s =
         ({| invalidated := N.succ (N.succ (invalidated s));
             skipped := skipped s;
             cleared := cleared s ++ [UserCache id; ProductCache pid] |}, Ok tt))
  ∧ (∀ s' r, invalidateCache action s = (s', r) →
       ∃ new, cleared s' = cleared s ++ new ∧
              invalidated s' = (invalidated s + N.of_nat (length new))%N).
Proof.
  repeat split.
  - intros Hk. unfold invalidateCache, skip. eff_unfold. rewrite Hk. reflexivity.
  - intros userId id Hk Hu Hid. unfold invalidateCache, invalidateUserCache.
    eff_unfold. rewrite Hk. simpl. rewrite Hu, Hid. reflexivity.
  - intros userId id data productId pid Hk Hu Hid Hd Hp Hpid.
    unfold invalidateCache, invalidateUserCache, invalidateProductCache.
    eff_unfold. rewrite Hk. simpl. rewrite Hu, Hid, Hd, Hp, Hpid. simpl.
    rewrite <- app_assoc. reflexivity.
  - intros s' r. apply invalidateCache_counts.
Qed.

Lemma invalidateCache_policy_witness :
  invalidateCache (event "purchase" "bob456" (VObj [("productId", VStr "LAPTOP-001")]))
                  initial =
    ({| invalidated := 2; skipped := 0;
        cleared := [UserCache "bob456"; ProductCache "LAPTOP-001"] |}, Ok tt)
  ∧ invalidateCache (event "purchase" "bob456" (VObj [])) initial =
    ({| invalidated := 2; skipped := 0;
        cleared := [UserCache "bob456"; ProductCache "undefined"] |}, Ok tt)
  ∧ invalidateCache (event "login" "alice123" (VObj [])) initial =
    ({| invalidated := 0; skipped := 1; cleared := [] |}, Ok tt).
Proof.
  split; [|split].
  - apply (proj1 (proj2 (proj2 (invalidateCache_policy
             (event "purchase" "bob456" (VObj [("productId", VStr "LAPTOP-001")]))
             initial)))
           (VStr "bob456") "bob456" (VObj [("productId", VStr "LAPTOP-001")])
           (VStr "LAPTOP-001") "LAPTOP-001"); reflexivity.
  - apply (proj1 (proj2 (proj2 (invalidateCache_policy
             (event "purchase" "bob456" (VObj [])) initial)))
           (VStr "bob456") "bob456" (VObj []) VUndefined "undefined"); reflexivity.
  - apply (proj1 (invalidateCache_policy (event "login" "alice123" (VObj [])) initial)).
    reflexivity.
Defined.

(** C4, as the claim has it, fails on a purchase without [productId]: the
    claim has the user cache alone cleared and one invalidation counted; the
    code clears the product cache too, under the key [undefined], and counts
    two. *)
Lemma invalidateCache_purchase_without_productId :
  get (VObj []) "productId" = Ok VUndefined
  ∧ ¬ (cleared (invalidateCache (event "purchase" "bob456" (VObj [])) initial).1
         = [UserCache "bob456"]
       ∧ invalidated (invalidateCache (event "purchase" "bob456" (VObj [])) initial).1
         = 1%N).
Proof.
  split; [reflexivity|]. intros [Hcleared _]. vm_compute in Hcleared. discriminate.
Qed.

End CachePolicy.

(** ** Acknowledgment *)

Section Acknowledgment.
Import JS Eff Subscriber Consumers.

(** One delivery through the callback, for any handler: the delivery becomes
    outstanding, the content is parsed, the handler runs on the consumer's
    fields, and only a handler that returned is followed by the [ack]. *)
Lemma deliver_on_message {L} (h : value → M L unit) (msg : delivery) (c : consumer L) :
  deliver (on_message h) msg c =
  match parse (content msg) with
  | Throw e =>
      ({| this := this c; unacked := {[ deliveryTag msg ]} ∪ unacked c |}, Throw e)
  | Ok action =>
      match h action (this c) with
      | (l', Ok _) =>
          ({| this := l';
              unacked := ({[ deliveryTag msg ]} ∪ unacked c) ∖ {[ deliveryTag msg ]} |},
           Ok tt)
      | (l', Throw e) =>
          ({| this := l'; unacked := {[ deliveryTag msg ]} ∪ unacked c |}, Throw e)
      end
  end.
Proof.
  unfold deliver, on_message, on_this, ack. eff_unfold. simpl.
  destruct (parse (content msg)) as [action|e]; [|reflexivity].
  destruct (h action (this c)) as [l' [[]|e]]; reflexivity.
Qed.

Lemma consume_on_message E r : consume E r = on_message (handler E r).
Proof. destruct r; reflexivity. Qed.

(** C2.  In each of the four consumers a delivery is acknowledged exactly
    when its content parsed and the handler returned, and then on the state
    the handler left; when the handler throws (or the content does not
    parse) no acknowledgment is issued and the delivery is still outstanding
    at the broker. *)
Theorem ack_only_after_handler_returns
    (E : AuditConsumer.env) (r : role) (msg : delivery) (c : consumer (fields r)) :
  let outcome := deliver (consume E r) msg c in
  (∀ action l',
     parse (content msg) = Ok action →
     handler E r action (this c) = (l', Ok tt) →
     outcome =
       ({| this := l';
           unacked := ({[ deliveryTag msg ]} ∪ unacked c) ∖ {[ deliveryTag msg ]} |},
        Ok tt))
  ∧ (∀ action l' e,
       parse (content msg) = Ok action →
       handler E r action (this c) = (l', Throw e) →
       outcome =
         ({| this := l'; unacked := {[ deliveryTag msg ]} ∪ unacked c |}, Throw e))
  ∧ (∀ e, parse (content msg) = Throw e →
       outcome =
         ({| this := this c; unacked := {[ deliveryTag msg ]} ∪ unacked c |}, Throw e))
  ∧ (deliveryTag msg ∉ unacked outcome.1 ↔
       ∃ action l', parse (content msg) = Ok action ∧
                    handler E r action (this c) = (l', Ok tt)).
Proof.
  intros outcome. subst outcome. rewrite consume_on_message, deliver_on_message.
  repeat split.
  - intros action l' -> ->. reflexivity.
  - intros action l' e -> ->. reflexivity.
  - intros e ->. reflexivity.
  - destruct (parse (content msg)) as [action|e]; simpl.
    + destruct (handler E r action (this c)) as [l' [[]|e]] eqn:Hh; simpl.
      * intros _. exists action, l'. split; [reflexivity | exact Hh].
      * intros Hout. exfalso. apply Hout, elem_of_union_l, elem_of_singleton.
        reflexivity.
    + intros Hout. exfalso. apply Hout, elem_of_union_l, elem_of_singleton.
      reflexivity.
  - intros (action & l' & -> & ->). simpl.
    rewrite elem_of_difference, elem_of_singleton. intros [_ Hne]. apply Hne.
    reflexivity.
Qed.

(** A purchase whose [data] is [null] makes the cache invalidator throw after
    it has cleared the user cache: the delivery stays outstanding. *)
Lemma ack_only_after_handler_returns_witness :
  deliver (consume {| AuditConsumer.now := 0; AuditConsumer.random := "0.5";
                      AuditConsumer.read_fault := None;
                      AuditConsumer.write_fault := None |} Cache)
          {| content := Rendered (JObj [("action", JStr "purchase");
                                        ("userId", JStr "bob456");
                                        ("data", JNull)]);
             deliveryTag := 7 |}
          {| this := CacheInvalidator.initial; unacked := ∅ |}
  = ({| this := {| CacheInvalidator.invalidated := 1;
                   CacheInvalidator.skipped := 0;
                   CacheInvalidator.cleared := [CacheInvalidator.UserCache "bob456"] |};
        unacked := {[ 7%N ]} ∪ ∅ |},
     Throw TypeError).
Proof.
  apply (proj1 (proj2 (ack_only_after_handler_returns
           {| AuditConsumer.now := 0; AuditConsumer.random := "0.5";
              AuditConsumer.read_fault := None; AuditConsumer.write_fault := None |}
           Cache
           {| content := Rendered (JObj [("action", JStr "purchase");
                                         ("userId", JStr "bob456");
                                         ("data", JNull)]);
              deliveryTag := 7 |}
           {| this := CacheInvalidator.initial; unacked := ∅ |}))
         (VObj [("action", VStr "purchase"); ("userId", VStr "bob456"); ("data", VNull)]));
    reflexivity.
Defined.

End Acknowledgment.

(** ** Audit: log identifiers *)

Section LogIds.
Import JS AuditConsumer.

(** A run of decimal digits followed by a dash splits in one way only. *)
Lemma digits_dash_inj (d1 d2 : Decimal.uint) (s1 s2 : string) :
  NilEmpty.string_of_uint d1 +:+ String "-" s1 =
  NilEmpty.string_of_uint d2 +:+ String "-" s2 →
  d1 = d2 ∧ s1 = s2.
Proof.
  revert d2. induction d1 as [|d1 IH|d1 IH|d1 IH|d1 IH|d1 IH|d1 IH|d1 IH|d1 IH|d1 IH|d1 IH];
    intros [|d2|d2|d2|d2|d2|d2|d2|d2|d2|d2]; simpl; intros H;
    try discriminate H;
    try (injection H as H; destruct (IH _ H) as [-> ->]; split; reflexivity).
  injection H as ->. split; reflexivity.
Qed.

Lemma N_to_uint_nonnil (n : N) : N.to_uint n ≠ Decimal.Nil.
Proof.
  destruct n as [|p]; simpl; [discriminate | apply DecimalPos.Unsigned.to_uint_nonnil].
Qed.

Lemma string_of_N_nilempty (n : N) :
  NilZero.string_of_uint (N.to_uint n) = NilEmpty.string_of_uint (N.to_uint n).
Proof.
  pose proof (N_to_uint_nonnil n) as Hn.
  destruct (N.to_uint n); [contradiction | reflexivity ..].
Qed.

(** C8, as the code has it.  The identifier is determined by, and
    determines, the millisecond the clock shows and the nine characters kept
    of the random number: two calls get different identifiers exactly when
    they differ in one of the two. *)
Theorem generateLogId_inj (E1 E2 : env) :
  generateLogId E1 = generateLogId E2 ↔
  now E1 = now E2 ∧
  String.substring 2 9 (random E1) = String.substring 2 9 (random E2).
Proof.
  unfold generateLogId. rewrite !string_of_N_nilempty. split.
  - intros H. simpl in H. injection H as H.
    apply digits_dash_inj in H as [Hn Hs].
    split; [apply DecimalN.Unsigned.to_uint_inj, Hn | exact Hs].
  - intros [-> ->]. reflexivity.
Qed.

(** C8, as the claim has it, fails: two calls in the same millisecond whose
    random numbers differ only after the ninth digit get the same
    identifier. *)
Lemma generateLogId_collision :
  random {| now := 1714557600000; random := "0.4fzyo82mvyr";
            read_fault := None; write_fault := None |}
  ≠ random {| now := 1714557600000; random := "0.4fzyo82mvk9";
              read_fault := None; write_fault := None |}
  ∧ generateLogId {| now := 1714557600000; random := "0.4fzyo82mvyr";
                     read_fault := None; write_fault := None |}
    = generateLogId {| now := 1714557600000; random := "0.4fzyo82mvk9";
                       read_fault := None; write_fault := None |}.
Proof. split; [discriminate | vm_compute; reflexivity]. Qed.

End LogIds.

(** ** Audit: the record store *)

Section AuditStore.
Import JS Eff Subscriber AuditConsumer.

(** What the inner [try] leaves in [logs]: the parsed file when it could be
    read and parsed, the empty array otherwise.  It never throws and never
    touches the store. *)
Lemma readLogs_run (E : env) (s : store) :
  readLogs E s =
  (s, Ok match read_fault E, logFile s with
         | None, Some (Rendered j) => revive j
         | _, _ => VArr []
         end).
Proof.
  unfold readLogs, readParsed, readFile. eff_unfold.
  destruct (read_fault E); [reflexivity|].
  destruct (logFile s) as [[j|]|]; reflexivity.
Qed.

(** [writeToFile] step by step, on the array the inner [try] produced. *)
Lemma writeToFile_array (E : env) (entry : value) (s : store) (l : list value) :
  readLogs E s = (s, Ok (VArr l)) →
  writeToFile E entry s =
  match write_fault E with
  | None =>
      ({| logFile := stringify (VArr (l ++ [entry])); stderr := stderr s |}, Ok tt)
  | Some (code, Untouched) =>
      ({| logFile := logFile s; stderr := stderr s ++ [code] |}, Ok tt)
  | Some (code, CutOff) =>
      ({| logFile := Some Invalid; stderr := stderr s ++ [code] |}, Ok tt)
  end.
Proof.
  intros Hlogs. unfold writeToFile, writeFile, console_error, push. eff_unfold.
  rewrite Hlogs. simpl. destruct (write_fault E) as [[code []]|]; reflexivity.
Qed.

(** When the stored document is not an array, [logs.push] throws before
    anything is written. *)
Lemma writeToFile_not_array (E : env) (entry : value) (s : store) (logs : value) :
  readLogs E s = (s, Ok logs) →
  (∀ l, logs ≠ VArr l) →
  writeToFile E entry s =
    ({| logFile := logFile s; stderr := stderr s ++ ["TypeError"] |}, Ok tt).
Proof.
  intros Hlogs Hna. unfold writeToFile, console_error, push. eff_unfold.
  rewrite Hlogs. destruct logs; try reflexivity. destruct (Hna elems eq_refl).
Qed.

(** [writeToFile] always returns; it has then either written a collection
    that ends with the entry, or logged one line. *)
Lemma writeToFile_returns (E : env) (entry : value) (s : store) :
  ∃ s', writeToFile E entry s = (s', Ok tt) ∧
    ((∃ l, logFile s' = stringify (VArr (l ++ [entry])) ∧ stderr s' = stderr s)
     ∨ (∃ line, stderr s' = stderr s ++ [line])) ∧
    (write_fault E ≠ None → ∃ line, stderr s' = stderr s ++ [line]).
Proof.
  pose proof (readLogs_run E s) as Hlogs.
  set (logs := match read_fault E, logFile s with
               | None, Some (Rendered j) => revive j
               | _, _ => VArr []
               end) in Hlogs.
  destruct (match logs with VArr l => Some l | _ => None end) as [l|] eqn:Harr.
  - assert (logs = VArr l) as Hl by (destruct logs; inversion Harr; reflexivity).
    rewrite Hl in Hlogs. rewrite (writeToFile_array E entry s l Hlogs).
    destruct (write_fault E) as [[code []]|]; eexists; (split; [reflexivity|]);
      simpl; (split; [|intros; try contradiction; eauto]); eauto.
  - rewrite (writeToFile_not_array E entry s logs Hlogs)
      by (intros l ->; discriminate).
    eexists; split; [reflexivity|]. simpl. split; [right|intros _]; eauto.
Qed.

(** The entry [logAction] builds for a message whose four fields are JSON
    values is representable. *)
Lemma auditEntry_representable logId (action userId timestamp data : value) flags :
  representable action = true → representable userId = true →
  representable timestamp = true → representable data = true →
  representable (auditEntry logId action userId timestamp data flags) = true.
Proof.
  intros Ha Hu Ht Hd. unfold auditEntry. simpl. rewrite Ha, Hu, Ht, Hd. simpl.
  induction flags as [|f flags IH]; [reflexivity | exact IH].
Qed.

(** Appending to a collection and reading the file again, with no I/O
    fault on the way: the whole array went through [JSON.stringify] and
    [JSON.parse]. *)
Lemma writeToFile_append (E E' : env) (entry : value) (old : list json) (s : store) :
  read_fault E = None → write_fault E = None → read_fault E' = None →
  logFile s = Some (Rendered (JArr old)) →
  writeToFile E entry s =
    ({| logFile := stringify (VArr (map revive old ++ [entry])); stderr := stderr s |},
     Ok tt)
  ∧ (readParsed E' (writeToFile E entry s).1).2
    = Ok (VArr (map round_trip (map revive old) ++ [round_trip entry])).
Proof.
  intros Hr Hw Hr' Hfile.
  assert (Hlogs : readLogs E s = (s, Ok (VArr (map revive old)))).
  { rewrite readLogs_run, Hr, Hfile. reflexivity. }
  rewrite (writeToFile_array E entry s _ Hlogs), Hw. split; [reflexivity|].
  unfold readParsed, readFile. eff_unfold. rewrite Hr'. simpl.
  rewrite revive_serialized_elements, map_app. reflexivity.
Qed.

(** [logAction] up to its last statement. *)
Lemma logAction_writes (E : env) (action kind userId timestamp data : value)
    (printed : string) (s : store) :
  get action "action" = Ok kind → to_string kind = Ok printed →
  get action "userId" = Ok userId →
  get action "timestamp" = Ok timestamp →
  get action "data" = Ok data →
  ∃ flags,
    getComplianceFlags action = Ok flags ∧
    logAction E action s =
      writeToFile E (auditEntry (generateLogId E) kind userId timestamp data flags) s.
Proof.
  intros Hk Hp Hu Ht Hd.
  destruct (getComplianceFlags action) as [flags|e] eqn:Hflags.
  2:{ unfold getComplianceFlags in Hflags. rewrite Hk in Hflags. discriminate. }
  exists flags. split; [reflexivity|].
  unfold logAction. eff_unfold. rewrite Hk, Hp, Hu, Ht, Hd, Hflags. reflexivity.
Qed.

(** X10.  The same through [logAction]: with a collection in the file that
    holds JSON values only, a message whose four fields are JSON values is
    appended as the entry built from them, under the identifier
    [generateLogId] gives and with the compliance flags of its kind, and the
    file read back is the old collection followed by that entry. *)
Lemma logAction_appends_entry (E E' : env) (action : value) (old : list json) (s : store)
    (kind userId timestamp data : value) (printed : string) :
  read_fault E = None → write_fault E = None → read_fault E' = None →
  logFile s = Some (Rendered (JArr old)) →
  forallb representable (map revive old) = true →
  get action "action" = Ok kind → to_string kind = Ok printed →
  get action "userId" = Ok userId →
  get action "timestamp" = Ok timestamp →
  get action "data" = Ok data →
  representable kind = true → representable userId = true →
  representable timestamp = true → representable data = true →
  ∃ flags,
    getComplianceFlags action = Ok flags ∧
    (readParsed E' (logAction E action s).1).2 =
      Ok (VArr (map revive old ++
                [auditEntry (generateLogId E) kind userId timestamp data flags])).
Proof.
  intros Hr Hw Hr' Hfile Hold Hk Hp Hu Ht Hd Hk' Hu' Ht' Hd'.
  destruct (logAction_writes E action kind userId timestamp data printed s
              Hk Hp Hu Ht Hd) as (flags & Hflags & Hlog).
  exists flags. split; [exact Hflags|]. rewrite Hlog.
  destruct (writeToFile_append E E' (auditEntry (generateLogId E) kind userId timestamp
                                       data flags) old s Hr Hw Hr' Hfile) as [_ ->].
  rewrite (serialize_elements _ Hold), serialize_element; [reflexivity|].
  apply auditEntry_representable; assumption.
Qed.

(** C7, as the code has it.  With a collection in the file and no I/O fault,
    appending an entry and reading the file again gives the collection that
    was there and the entry, in this order, each as it comes back from
    [JSON.stringify] and [JSON.parse].  A collection of JSON values, as every
    collection an earlier append wrote is, comes back as it was, and so does
    an entry that is a JSON value; what is read back is a collection of JSON
    values again. *)
Theorem append_then_reread (E E' : env) (entry : value) (old : list json) (s : store) :
  read_fault E = None → write_fault E = None → read_fault E' = None →
  logFile s = Some (Rendered (JArr old)) →
  (readParsed E' s).2 = Ok (VArr (map revive old))
  ∧ (writeToFile E entry s).2 = Ok tt
  ∧ (readParsed E' (writeToFile E entry s).1).2
    = Ok (VArr (map round_trip (map revive old) ++ [round_trip entry]))
  ∧ (forallb representable (map revive old) = true →
     map round_trip (map revive old) = map revive old)
  ∧ (representable entry = true → round_trip entry = entry)
  ∧ forallb representable (map round_trip (map revive old) ++ [round_trip entry]) = true.
Proof.
  intros Hr Hw Hr' Hfile.
  destruct (writeToFile_append E E' entry old s Hr Hw Hr' Hfile) as [Hrun Hread].
  split; [|split; [|split; [|split; [|split]]]].
  - unfold readParsed, readFile. eff_unfold. rewrite Hr', Hfile. reflexivity.
  - rewrite Hrun. reflexivity.
  - exact Hread.
  - apply serialize_elements.
  - apply serialize_element.
  - rewrite forallb_app, round_trip_all_representable. simpl.
    rewrite round_trip_representable. reflexivity.
Qed.

Lemma append_then_reread_witness :
  (readParsed {| now := 0; random := "0.5"; read_fault := None; write_fault := None |}
     (writeToFile {| now := 0; random := "0.5"; read_fault := None; write_fault := None |}
        (VObj [("logId", VStr "AUDIT-2-b"); ("action", VStr "purchase");
               ("data", VObj [("productId", VStr "LAPTOP-001");
                              ("amount", VNum 1299.99%float)])])
        {| logFile := Some (Rendered (JArr [JObj [("logId", JStr "AUDIT-1-a");
                                                  ("action", JStr "login")]]));
           stderr := [] |}).1).2
  = Ok (VArr [VObj [("logId", VStr "AUDIT-1-a"); ("action", VStr "login")];
              VObj [("logId", VStr "AUDIT-2-b"); ("action", VStr "purchase");
                    ("data", VObj [("productId", VStr "LAPTOP-001");
                                   ("amount", VNum 1299.99%float)])]]).
Proof.
  apply (proj1 (proj2 (proj2 (append_then_reread
           {| now := 0; random := "0.5"; read_fault := None; write_fault := None |}
           {| now := 0; random := "0.5"; read_fault := None; write_fault := None |}
           (VObj [("logId", VStr "AUDIT-2-b"); ("action", VStr "purchase");
                  ("data", VObj [("productId", VStr "LAPTOP-001");
                                 ("amount", VNum 1299.99%float)])])
           [JObj [("logId", JStr "AUDIT-1-a"); ("action", JStr "login")]]
           {| logFile := Some (Rendered (JArr [JObj [("logId", JStr "AUDIT-1-a");
                                                     ("action", JStr "login")]]));
              stderr := [] |}
           eq_refl eq_refl eq_refl eq_refl)))).
Defined.

(** C7, as the claim has it, fails on an entry with a field that is
    [undefined]: for the message [{action: 'login', userId: 'alice123'}]
    [logAction] appends an entry whose [timestamp] and [data] are
    [undefined]; [JSON.stringify] leaves both out, and the entry read back
    has four properties where the appended one has six. *)
Lemma append_then_reread_drops_undefined_fields :
  let E := {| now := 1714557600000; random := "0.4fzyo82mvyr";
              read_fault := None; write_fault := None |} in
  let s := {| logFile := Some (Rendered (JArr [])); stderr := [] |} in
  let entry := auditEntry "AUDIT-1714557600000-4fzyo82mv" (VStr "login")
                 (VStr "alice123") VUndefined VUndefined ["LOGGED"; "SECURITY_EVENT"] in
  logAction E (VObj [("action", VStr "login"); ("userId", VStr "alice123")]) s
    = writeToFile E entry s
  ∧ (writeToFile E entry s).2 = Ok tt
  ∧ (readParsed E (writeToFile E entry s).1).2
    = Ok (VArr [VObj [("logId", VStr "AUDIT-1714557600000-4fzyo82mv");
                      ("action", VStr "login"); ("userId", VStr "alice123");
                      ("compliance", VArr [VStr "LOGGED"; VStr "SECURITY_EVENT"])]])
  ∧ (readParsed E (writeToFile E entry s).1).2 ≠ Ok (VArr ([] ++ [entry])).
Proof.
  cbv zeta. split; [reflexivity|]. split; [reflexivity|]. split; [reflexivity|].
  vm_compute. discriminate.
Qed.

(** C6, as the code has it.  A missing log file counts as the empty
    collection: the first append writes the one-entry collection.  A write
    that fails before the file is touched leaves the file as it was and logs
    the failure.  The file is rewritten in place, so a write that fails
    part-way leaves a file that no longer parses, and logs the failure. *)
Theorem writeToFile_absence_and_failed_write (E : env) (entry : value) (s : store) :
  (logFile s = None → write_fault E = None →
     writeToFile E entry s =
       ({| logFile := stringify (VArr [entry]); stderr := stderr s |}, Ok tt))
  ∧ (∀ code, write_fault E = Some (code, Untouched) →
       ∃ line, writeToFile E entry s =
         ({| logFile := logFile s; stderr := stderr s ++ [line] |}, Ok tt))
  ∧ (∀ code l, write_fault E = Some (code, CutOff) →
       readLogs E s = (s, Ok (VArr l)) →
       writeToFile E entry s =
         ({| logFile := Some Invalid; stderr := stderr s ++ [code] |}, Ok tt)
       ∧ ∀ E', (readParsed E' (writeToFile E entry s).1).2 ≠ Ok (VArr l)).
Proof.
  repeat split.
  - intros Hfile Hw.
    assert (Hlogs : readLogs E s = (s, Ok (VArr []))).
    { rewrite readLogs_run, Hfile. destruct (read_fault E); reflexivity. }
    rewrite (writeToFile_array E entry s _ Hlogs), Hw. reflexivity.
  - intros code Hw. pose proof (readLogs_run E s) as Hlogs.
    set (logs := match read_fault E, logFile s with
                 | None, Some (Rendered j) => revive j
                 | _, _ => VArr []
                 end) in Hlogs.
    destruct (match logs with VArr l => Some l | _ => None end) as [l|] eqn:Harr.
    + assert (logs = VArr l) as Hl by (destruct logs; inversion Harr; reflexivity).
      rewrite Hl in Hlogs. rewrite (writeToFile_array E entry s l Hlogs), Hw.
      eexists; reflexivity.
    + rewrite (writeToFile_not_array E entry s logs Hlogs)
        by (intros l ->; discriminate).
      eexists; reflexivity.
  - rename H into Hw, H0 into Hlogs.
    rewrite (writeToFile_array E entry s l Hlogs), Hw. reflexivity.
  - rename H into Hw, H0 into Hlogs. intros E'.
    rewrite (writeToFile_array E entry s l Hlogs), Hw.
    unfold readParsed, readFile. eff_unfold. simpl.
    destruct (read_fault E'); discriminate.
Qed.

Lemma writeToFile_absence_and_failed_write_witness :
  writeToFile {| now := 0; random := "0.5"; read_fault := None; write_fault := None |}
    (VObj [("logId", VStr "AUDIT-1-a")]) {| logFile := None; stderr := [] |}
  = ({| logFile := Some (Rendered (JArr [JObj [("logId", JStr "AUDIT-1-a")]]));
        stderr := [] |}, Ok tt).
Proof.
  apply (proj1 (writeToFile_absence_and_failed_write
           {| now := 0; random := "0.5"; read_fault := None; write_fault := None |}
           (VObj [("logId", VStr "AUDIT-1-a")]) {| logFile := None; stderr := [] |})
           eq_refl eq_refl).
Defined.

(** C6, as the claim has it, fails: the file holds one entry, the disk fills
    up while the second append rewrites the file, and a reader that found the
    one-entry collection before finds no collection after. *)
Lemma writeToFile_partial_write_loses_entries :
  (readParsed {| now := 0; random := "0.5"; read_fault := None; write_fault := None |}
     {| logFile := Some (Rendered (JArr [JObj [("logId", JStr "AUDIT-1-a")]]));
        stderr := [] |}).2
  = Ok (VArr [VObj [("logId", VStr "AUDIT-1-a")]])
  ∧ (readParsed {| now := 0; random := "0.5"; read_fault := None; write_fault := None |}
       (writeToFile {| now := 0; random := "0.5"; read_fault := None;
                       write_fault := Some ("ENOSPC", CutOff) |}
          (VObj [("logId", VStr "AUDIT-2-b")])
          {| logFile := Some (Rendered (JArr [JObj [("logId", JStr "AUDIT-1-a")]]));
             stderr := [] |}).1).2
  ≠ Ok (VArr [VObj [("logId", VStr "AUDIT-1-a")]]).
Proof. split; [reflexivity | vm_compute; discriminate]. Qed.

(** The inner [catch] takes every error, not only the missing file its
    comment names: when the file is there but cannot be read, the collection
    starts over empty and the append replaces what the file held, without a
    line on the error console. *)
Lemma writeToFile_read_fault_starts_over (E : env) (entry : value) (s : store)
    (code : string) :
  read_fault E = Some code → write_fault E = None →
  writeToFile E entry s =
    ({| logFile := stringify (VArr [entry]); stderr := stderr s |}, Ok tt).
Proof.
  intros Hr Hw.
  assert (Hlogs : readLogs E s = (s, Ok (VArr []))).
  { rewrite readLogs_run, Hr. reflexivity. }
  rewrite (writeToFile_array E entry s _ Hlogs), Hw. reflexivity.
Qed.

(** Whether [logAction] completes is decided before it touches the file: it
    throws exactly when the message is [null] or [undefined], or when its
    action kind cannot be printed. *)
Lemma logAction_result (E : env) (action : value) (s : store) :
  (logAction E action s).2 =
  rbind (get action "action") (λ kind, rbind (to_string kind) (λ _, Ok tt)).
Proof.
  destruct (get action "action") as [kind|e] eqn:Hk.
  2:{ unfold logAction. eff_unfold. rewrite Hk. reflexivity. }
  destruct (to_string kind) as [printed|e] eqn:Hp.
  2:{ unfold logAction. eff_unfold. rewrite Hk, Hp. reflexivity. }
  assert (Hget : ∀ k, ∃ v, get action k = Ok v).
  { intros k. destruct action; try discriminate; simpl; eauto. }
  destruct (Hget "userId") as [u Hu], (Hget "timestamp") as [t Ht],
    (Hget "data") as [d Hd].
  destruct (logAction_writes E action kind u t d printed s Hk Hp Hu Ht Hd)
    as (flags & _ & ->).
  destruct (writeToFile_returns E (auditEntry (generateLogId E) kind u t d flags) s)
    as (s' & -> & _).
  simpl. rewrite Hp. reflexivity.
Qed.

(** When [logAction] throws, it has not touched the store. *)
Lemma logAction_throws (E : env) (action : value) (s : store) (e : exn) :
  (logAction E action s).2 = Throw e → (logAction E action s).1 = s.
Proof.
  rewrite logAction_result.
  destruct (get action "action") as [kind|e'] eqn:Hk.
  2:{ intros _. unfold logAction. eff_unfold. rewrite Hk. reflexivity. }
  simpl. destruct (to_string kind) as [printed|e'] eqn:Hp; [discriminate|].
  intros _. unfold logAction. eff_unfold. rewrite Hk, Hp. reflexivity.
Qed.

(** C9, as the code has it.  [writeToFile] returns normally whatever the
    read, the parse and the write do; it has then either written a collection
    that ends with the entry or logged one line, and it has logged one
    whenever the write was going to fail.  A missing file is no failure: the
    collection starts empty and nothing is logged.  Whether [logAction]
    completes depends on the message alone, not on the file or on an I/O
    error, and when it throws it has left the store alone; for a message
    that parses to a value with a printable action kind it returns and the
    delivery is acknowledged, persisted entry or not. *)
Theorem audit_failures_do_not_block_ack (E : env) (msg : delivery)
    (c : consumer store) (action kind : value) (printed : string) :
  parse (content msg) = Ok action →
  get action "action" = Ok kind →
  to_string kind = Ok printed →
  (∀ entry s, ∃ s',
     writeToFile E entry s = (s', Ok tt) ∧
     ((∃ l, logFile s' = stringify (VArr (l ++ [entry])) ∧ stderr s' = stderr s)
      ∨ (∃ line, stderr s' = stderr s ++ [line])) ∧
     (write_fault E ≠ None → ∃ line, stderr s' = stderr s ++ [line]))
  ∧ (∀ entry s, logFile s = None → write_fault E = None →
       writeToFile E entry s =
         ({| logFile := stringify (VArr [entry]); stderr := stderr s |}, Ok tt))
  ∧ (∀ a E1 E2 s1 s2, (logAction E1 a s1).2 = (logAction E2 a s2).2)
  ∧ (∀ a E' s e, (logAction E' a s).2 = Throw e → (logAction E' a s).1 = s)
  ∧ ∃ s', logAction E action (this c) = (s', Ok tt) ∧
      deliver (consume E) msg c =
        ({| this := s';
            unacked := ({[ deliveryTag msg ]} ∪ unacked c) ∖ {[ deliveryTag msg ]} |},
         Ok tt).
Proof.
  intros Hparse Hkind Hprint. split; [intros; apply writeToFile_returns|].
  split.
  { intros entry s Hfile Hw.
    assert (Hlogs : readLogs E s = (s, Ok (VArr []))).
    { rewrite readLogs_run, Hfile. destruct (read_fault E); reflexivity. }
    rewrite (writeToFile_array E entry s _ Hlogs), Hw. reflexivity. }
  split; [intros; rewrite !logAction_result; reflexivity|].
  split; [intros a E' s e; apply logAction_throws|].
  destruct (logAction E action (this c)) as [s' r] eqn:Hlog.
  pose proof (logAction_result E action (this c)) as Hres.
  rewrite Hlog, Hkind in Hres. simpl in Hres. rewrite Hprint in Hres.
  simpl in Hres. subst r.
  exists s'. split; [reflexivity|].
  unfold consume. rewrite deliver_on_message, Hparse, Hlog. reflexivity.
Qed.

Lemma audit_failures_do_not_block_ack_witness :
  ∃ s', deliver (consume {| now := 1714557600000; random := "0.4fzyo82mvyr";
                            read_fault := None;
                            write_fault := Some ("ENOSPC", Untouched) |})
          {| content := Rendered (JObj [("action", JStr "login");
                                        ("userId", JStr "alice123")]);
             deliveryTag := 3 |}
          {| this := {| logFile := None; stderr := [] |}; unacked := ∅ |}
        = ({| this := s'; unacked := ({[ 3%N ]} ∪ ∅) ∖ {[ 3%N ]} |}, Ok tt).
Proof.
  destruct (proj2 (proj2 (proj2 (proj2 (audit_failures_do_not_block_ack
     {| now := 1714557600000; random := "0.4fzyo82mvyr";
        read_fault := None; write_fault := Some ("ENOSPC", Untouched) |}
     {| content := Rendered (JObj [("action", JStr "login"); ("userId", JStr "alice123")]);
        deliveryTag := 3 |}
     {| this := {| logFile := None; stderr := [] |}; unacked := ∅ |}
     (VObj [("action", VStr "login"); ("userId", VStr "alice123")])
     (VStr "login") "login" eq_refl eq_refl eq_refl))))) as (s' & _ & Hs').
  exists s'. exact Hs'.
Defined.

(** C9, as the claim has it, fails twice.  The first append finds no log
    file: the read error is caught by the inner [catch], and nothing is
    logged.  And [logAction] does not always complete: on the message [null]
    it throws at its first statement, and the delivery is not
    acknowledged. *)
Lemma writeToFile_missing_file_not_logged :
  let E := {| now := 0; random := "0.5"; read_fault := None; write_fault := None |} in
  let s := {| logFile := None; stderr := [] |} in
  (readParsed E s).2 = Throw (SystemError "ENOENT")
  ∧ writeToFile E (VObj [("logId", VStr "AUDIT-1-a")]) s
    = ({| logFile := stringify (VArr [VObj [("logId", VStr "AUDIT-1-a")]]);
          stderr := [] |}, Ok tt)
  ∧ logAction E VNull s = (s, Throw TypeError)
  ∧ deliver (consume E) {| content := Rendered JNull; deliveryTag := 3 |}
      {| this := s; unacked := ∅ |}
    = ({| this := s; unacked := {[ 3%N ]} ∪ ∅ |}, Throw TypeError).
Proof. cbv zeta. repeat split. Qed.

End AuditStore.

(** ** The exchange: setup, publish, fan-out *)

Section FanOut.
Import JS Eff Broker.

Lemma assertExchange_ok name type durable b b' :
  assertExchange name type durable b = (b', Ok tt) →
  (∃ e, exchanges b' !! name = Some e ∧ ex_type e = type ∧ ex_durable e = durable) ∧
  queues b' = queues b ∧ bindings b' = bindings b.
Proof.
  unfold assertExchange. destruct (exchanges b !! name) as [e|] eqn:He.
  - destruct (String.eqb_spec (ex_type e) type) as [Ht|]; simpl; [|discriminate].
    destruct (Bool.eqb (ex_durable e) durable) eqn:Hd; [|discriminate].
    apply Bool.eqb_prop in Hd. intros [= <-]. eauto 6.
  - intros [= <-]. simpl. rewrite lookup_insert_eq. eauto 6.
Qed.

Lemma assertQueue_ok name durable b b' :
  assertQueue name durable b = (b', Ok tt) →
  is_Some (queues b' !! name) ∧
  (∀ q, is_Some (queues b !! q) → is_Some (queues b' !! q)) ∧
  exchanges b' = exchanges b ∧ bindings b' = bindings b.
Proof.
  unfold assertQueue. destruct (queues b !! name) as [q0|] eqn:Hq.
  - destruct (Bool.eqb (q_durable q0) durable); intros [= <-]; eauto.
  - intros [= <-]. simpl. rewrite lookup_insert_eq. repeat split; eauto.
    intros q Hsome. destruct (decide (name = q)) as [->|Hne].
    + rewrite lookup_insert_eq. eauto.
    + rewrite lookup_insert_ne by exact Hne. exact Hsome.
Qed.

Lemma bindQueue_ok q ex key b b' :
  bindQueue q ex key b = (b', Ok tt) →
  bindings b' = {[ (q, ex, key) ]} ∪ bindings b ∧
  is_Some (queues b !! q) ∧
  queues b' = queues b ∧ exchanges b' = exchanges b.
Proof.
  unfold bindQueue. destruct (queues b !! q) as [q0|] eqn:Hq; [|discriminate].
  destruct (exchanges b !! ex); [|discriminate]. intros [= <-]. simpl. eauto.
Qed.

(** After the loop of [setupExchange] every listed queue is declared and
    bound to the exchange, and what was declared or bound before still is. *)
Lemma bind_all_ok ex names : ∀ b b',
  Setup.bind_all ex names b = (b', Ok tt) →
  exchanges b' = exchanges b ∧
  (∀ q, is_Some (queues b !! q) → is_Some (queues b' !! q)) ∧
  bindings b ⊆ bindings b' ∧
  ∀ q, q ∈ names → is_Some (queues b' !! q) ∧ (q, ex, "") ∈ bindings b'.
Proof.
  induction names as [|name names IH]; intros b b'; simpl.
  - eff_unfold. intros [= <-]. split; [reflexivity|]. split; [auto|].
    split; [reflexivity|]. intros q Hq. apply elem_of_nil in Hq. contradiction.
  - eff_unfold.
    destruct (assertQueue name true b) as [b1 [[]|e]] eqn:Ha; [|discriminate].
    destruct (bindQueue name ex "" b1) as [b2 [[]|e]] eqn:Hb; [|discriminate].
    intros Hrest.
    apply assertQueue_ok in Ha as (_ & Hq1 & He1 & Hb1).
    apply bindQueue_ok in Hb as (Hb2 & Hname & Hq2 & He2).
    apply IH in Hrest as (He3 & Hq3 & Hb3 & Hall).
    split; [congruence|]. split; [|split].
    + intros q Hq. apply Hq3. rewrite Hq2. apply Hq1, Hq.
    + rewrite <- Hb1. intros x Hx. apply Hb3. rewrite Hb2.
      apply elem_of_union_r, Hx.
    + intros q Hq. apply elem_of_cons in Hq as [->|Hin]; [|apply Hall, Hin].
      split.
      * apply Hq3. rewrite Hq2. exact Hname.
      * apply Hb3. rewrite Hb2. apply elem_of_union_l, elem_of_singleton.
        reflexivity.
Qed.

Lemma setupExchange_ok cfg b b' :
  Setup.setupExchange cfg b = (b', Ok tt) →
  (∃ e, exchanges b' !! Config.name (Config.exchange cfg) = Some e ∧
        ex_type e = Config.type (Config.exchange cfg) ∧
        ex_durable e = Config.durable (Config.exchange cfg)) ∧
  ∀ q, q ∈ Config.queue_names cfg →
    is_Some (queues b' !! q) ∧ (q, Config.name (Config.exchange cfg), "") ∈ bindings b'.
Proof.
  unfold Setup.setupExchange. eff_unfold.
  destruct (assertExchange _ _ _ b) as [b1 [[]|e]] eqn:Ha; [|discriminate].
  intros Hloop.
  apply assertExchange_ok in Ha as ((e & He & Ht & Hd) & _ & _).
  apply bind_all_ok in Hloop as (Hex & _ & _ & Hall).
  split; [|exact Hall]. exists e. rewrite Hex. auto.
Qed.

(** The routing of a fanout exchange: a queue is a target exactly when some
    binding ties it to the exchange, whatever the keys. *)
Lemma route_fanout b ex key e :
  exchanges b !! ex = Some e → ex_type e = "fanout" →
  ∃ targets, route b ex key = Some targets ∧
             ∀ q, q ∈ targets ↔ bound b q ex.
Proof.
  intros He Ht. unfold route. rewrite He. simpl. eexists. split; [reflexivity|].
  intros q. rewrite elem_of_map. unfold bound. split.
  - intros ([[q' ex'] k] & -> & Hin). apply elem_of_filter in Hin as [[Hex _] Hin].
    simpl in *. subst ex'. eauto.
  - intros [k Hin]. exists (q, ex, k). split; [reflexivity|].
    apply elem_of_filter. simpl. auto.
Qed.

(** One publish to a fanout exchange: every declared queue bound to it gets
    the message once, at its end; no other queue changes. *)
Lemma publish_fanout b ex key e m :
  exchanges b !! ex = Some e → ex_type e = "fanout" →
  (∀ q, is_Some (queues b !! q) → bound b q ex →
        messages (publish ex key m b) q = messages b q ++ [m]) ∧
  (∀ q, ¬ bound b q ex → messages (publish ex key m b) q = messages b q).
Proof.
  intros He Ht. destruct (route_fanout b ex key e He Ht) as (targets & Hroute & Hin).
  unfold publish, messages. rewrite Hroute. simpl. split.
  - intros q [q0 Hq0] Hb. rewrite map_lookup_imap, Hq0. simpl.
    rewrite bool_decide_eq_true_2 by (apply Hin, Hb). reflexivity.
  - intros q Hnb. rewrite map_lookup_imap. destruct (queues b !! q) as [q0|]; simpl;
      [|reflexivity].
    rewrite bool_decide_eq_false_2 by (rewrite Hin; exact Hnb). reflexivity.
Qed.

Lemma stringify_message now action userId data :
  ∃ doc, stringify (ActionPublisher.make_message now action userId data)
         = Some (Rendered doc).
Proof. unfold stringify. simpl. eexists. reflexivity. Qed.

(** [publishAction] on a connected publisher: the broker is handed the
    rendering of the record built, then [action] and [userId] are printed,
    and the record is returned if both could be. *)
Lemma publishAction_run cfg this now action userId data b :
  ActionPublisher.channel this = Some tt →
  ∃ buffer,
    stringify (ActionPublisher.make_message now action userId data) = Some buffer ∧
    ActionPublisher.publishAction cfg this now action userId data b =
      (publish (Config.name (Config.exchange cfg)) ""
         {| content := buffer; persistent := true; contentType := "application/json" |} b,
       rbind (to_string action) (λ _,
       rbind (to_string userId) (λ _,
       Ok (ActionPublisher.make_message now action userId data)))).
Proof.
  intros Hch. destruct (stringify_message now action userId data) as [doc Hdoc].
  exists (Rendered doc). split; [exact Hdoc|].
  unfold ActionPublisher.publishAction. rewrite Hch, Hdoc. eff_unfold.
  destruct (to_string action); [destruct (to_string userId)|]; reflexivity.
Qed.




(** C1, as the code has it.  After [setupExchange] on a fanout exchange, one
    [publishAction] appends one message, the rendering of the record it
    built, to every queue the configuration lists (and to every other
    declared queue bound to the exchange) and appends nothing anywhere else.
    What a consumer parses is that record as it comes back from
    [JSON.stringify] and [JSON.parse]: exactly the record the publisher built
    when the record is a JSON value. *)
Theorem fanout_delivers_one_identical_copy
    cfg (b0 b1 : broker) (now : string) (action userId data : value) :
  Config.type (Config.exchange cfg) = "fanout" →
  Setup.setupExchange cfg b0 = (b1, Ok tt) →
  ∃ this m,
    let record := ActionPublisher.make_message now action userId data in
    let b2 := (ActionPublisher.publishAction cfg this now action userId data b1).1 in
    ActionPublisher.connect cfg ActionPublisher.new b1 = (b1, Ok this) ∧
    stringify record = Some (content m) ∧
    (∀ q, q ∈ Config.queue_names cfg → messages b2 q = messages b1 q ++ [m]) ∧
    (∀ q, is_Some (queues b1 !! q) → bound b1 q (Config.name (Config.exchange cfg)) →
          messages b2 q = messages b1 q ++ [m]) ∧
    (∀ q, ¬ bound b1 q (Config.name (Config.exchange cfg)) →
          messages b2 q = messages b1 q) ∧
    parse (content m) = Ok (round_trip record) ∧
    (representable record = true → parse (content m) = Ok record).
Proof.
  intros Hfan Hsetup.
  destruct (setupExchange_ok cfg b0 b1 Hsetup) as ((e & He & Ht & Hd) & Hqueues).
  rewrite Hfan in Ht.
  set (this := {| ActionPublisher.connection := Some (Config.url cfg);
                  ActionPublisher.channel := Some tt |}).
  destruct (publishAction_run cfg this now action userId data b1 eq_refl)
    as (buffer & Hbuf & Hrun).
  set (m := {| content := buffer; persistent := true;
               contentType := "application/json" |}).
  destruct (publish_fanout b1 _ "" e m He Ht) as [Hbound Hunbound].
  assert (Hparse : parse buffer
                   = Ok (round_trip (ActionPublisher.make_message now action userId data))).
  { unfold stringify in Hbuf. unfold round_trip.
    destruct (serialize (ActionPublisher.make_message now action userId data))
      as [doc|]; [|discriminate].
    injection Hbuf as <-. reflexivity. }
  exists this, m. cbv zeta. rewrite Hrun. cbn [fst].
  split; [|split; [|split; [|split; [|split; [|split]]]]].
  - unfold ActionPublisher.connect, assertExchange. eff_unfold.
    rewrite He, Ht, Hd, Hfan, Bool.eqb_reflx. reflexivity.
  - exact Hbuf.
  - intros q Hq. destruct (Hqueues q Hq) as [Hdecl Hbind].
    apply Hbound; [exact Hdecl | exists ""; exact Hbind].
  - exact Hbound.
  - exact Hunbound.
  - exact Hparse.
  - intros Hrep. simpl content. rewrite Hparse, (serialize_element _ Hrep). reflexivity.
Qed.

Lemma fanout_delivers_one_identical_copy_witness :
  ∃ this m,
    ActionPublisher.connect Config.rabbitmq ActionPublisher.new
      (Setup.setupExchange Config.rabbitmq Broker.empty).1
    = ((Setup.setupExchange Config.rabbitmq Broker.empty).1, Ok this) ∧
    (∀ q, q ∈ Config.queue_names Config.rabbitmq →
          messages
            (ActionPublisher.publishAction Config.rabbitmq this "2024-05-01T10:00:01.000Z"
               (VStr "purchase") (VStr "bob456")
               (VObj [("productId", VStr "LAPTOP-001"); ("amount", VNum 1299.99%float)])
               (Setup.setupExchange Config.rabbitmq Broker.empty).1).1 q
          = messages (Setup.setupExchange Config.rabbitmq Broker.empty).1 q ++ [m]) ∧
    parse (content m)
    = Ok (ActionPublisher.make_message "2024-05-01T10:00:01.000Z"
            (VStr "purchase") (VStr "bob456")
            (VObj [("productId", VStr "LAPTOP-001"); ("amount", VNum 1299.99%float)])).
Proof.
  destruct (fanout_delivers_one_identical_copy Config.rabbitmq Broker.empty
              (Setup.setupExchange Config.rabbitmq Broker.empty).1
              "2024-05-01T10:00:01.000Z" (VStr "purchase") (VStr "bob456")
              (VObj [("productId", VStr "LAPTOP-001"); ("amount", VNum 1299.99%float)])
              eq_refl ltac:(vm_compute; reflexivity))
    as (this & m & Hconnect & _ & Hqueues & _ & _ & _ & Hparse).
  exists this, m. split; [exact Hconnect|]. split; [exact Hqueues|].
  apply Hparse. reflexivity.
Defined.

(** C1, as the claim has it, fails on a payload that is not a JSON value:
    published with [amount: NaN], the purchase reaches the audit queue once,
    but the record the consumer parses has [amount: null], which is not the
    record the publisher serialized. *)
Lemma fanout_copy_differs_for_NaN :
  let data := VObj [("productId", VStr "LAPTOP-001"); ("amount", VNum nan)] in
  let this := {| ActionPublisher.connection := Some "amqp://localhost";
                 ActionPublisher.channel := Some tt |} in
  let run := ActionPublisher.publishAction Config.rabbitmq this
               "2024-05-01T10:00:00.000Z" (VStr "purchase") (VStr "bob456") data
               (Setup.setupExchange Config.rabbitmq Broker.empty).1 in
  run.2 = Ok (ActionPublisher.make_message "2024-05-01T10:00:00.000Z"
                (VStr "purchase") (VStr "bob456") data)
  ∧ (parse ∘ content) <$> messages run.1 "audit.queue"
    = [Ok (ActionPublisher.make_message "2024-05-01T10:00:00.000Z"
             (VStr "purchase") (VStr "bob456")
             (VObj [("productId", VStr "LAPTOP-001"); ("amount", VNull)]))]
  ∧ (parse ∘ content) <$> messages run.1 "audit.queue" ≠ [run.2].
Proof.
  split; [reflexivity|]. split; [vm_compute; reflexivity|].
  vm_compute. discriminate.
Qed.

End FanOut.

(** ** Analytics: the counters over a run *)

Section AnalyticsRuns.
Import JS AnalyticsConsumer.

Lemma processAction_counts_witness :
  ∃ stats',
    processAction (event "purchase" "bob456" (VObj [])) initial_stats = (stats', Ok tt) ∧
    stats' !! "total" = Some (0 + 1)%N ∧
    stats' !! "purchase" = N.succ <$> initial_stats !! "purchase" ∧
    ∀ k, k ≠ "total" → k ≠ "purchase" → stats' !! k = initial_stats !! k.
Proof.
  apply (processAction_counts (event "purchase" "bob456" (VObj []))
           (VStr "purchase") (VStr "bob456") (VStr "2024-05-01T10:00:00.000Z")
           "purchase" "bob456" "2024-05-01T10:00:00.000Z" initial_stats 0%N);
    try reflexivity. discriminate.
Defined.

(** The state [processAction] leaves, whether it returns or throws: the one
    it found, or that one with the kind's counter (when there is one) and
    [total] bumped. *)
Lemma processAction_state (action : value) (stats : gmap string N) :
  (processAction action stats).1 = stats
  ∨ ∃ key, (processAction action stats).1 =
      increment "total"
        (if bool_decide (is_Some (stats !! key)) then increment key stats else stats).
Proof.
  unfold processAction. eff_unfold.
  destruct (get action "action") as [kind|]; [|left; reflexivity].
  destruct (to_string kind) as [key|]; [|left; reflexivity].
  right. exists key.
  destruct (bool_decide (is_Some (stats !! key))); simpl;
    destruct (get action "userId") as [u|]; try reflexivity;
    destruct (to_string u); try reflexivity;
    destruct (get action "timestamp") as [t|]; try reflexivity;
    destruct (to_string t); try reflexivity;
    destruct (get action "data"); reflexivity.
Qed.

(** X2.  [processAction] never adds or removes a counter and never lowers
    one, whatever the message and whether it returns or throws: the object
    keeps its keys, a per-kind counter grows by at most one and [total] by at
    most two. *)
Theorem processAction_keeps_counters (action : value) (stats : gmap string N) :
  dom (processAction action stats).1 = dom stats
  ∧ ∀ k n, stats !! k = Some n →
      ∃ n', (processAction action stats).1 !! k = Some n' ∧
            (n ≤ n')%N ∧ (n' ≤ n + 2)%N ∧ (k ≠ "total" → (n' ≤ n + 1)%N).
Proof.
  destruct (processAction_state action stats) as [->|[key ->]].
  - split; [reflexivity|]. intros k n Hk. exists n. repeat split; [exact Hk|lia..].
  - split.
    + unfold increment. rewrite dom_alter_L. case_bool_decide; [|reflexivity].
      apply dom_alter_L.
    + intros k n Hk. rewrite increment_lookup.
      assert (Hinner : ∃ m, (if bool_decide (is_Some (stats !! key))
                             then increment key stats else stats) !! k = Some m ∧
                            (n ≤ m)%N ∧ (m ≤ n + 1)%N ∧ (k ≠ key → m = n)).
      { case_bool_decide.
        - rewrite increment_lookup. destruct (decide (key = k)) as [->|Hne].
          + rewrite Hk. simpl. eexists. split; [reflexivity|].
            repeat split; [lia | lia | congruence].
          + exists n. repeat split; [exact Hk | lia..].
        - exists n. repeat split; [exact Hk | lia..]. }
      destruct Hinner as (m & Hm & Hle & Hub & Hsame).
      destruct (decide ("total" = k)) as [<-|Hne]; rewrite Hm; simpl.
      * eexists. split; [reflexivity|]. repeat split; [lia | lia | congruence].
      * exists m. repeat split; [assumption | lia | lia].
Qed.

Lemma processAction_step_lookup (stats : gmap string N) (kind k : string) (c : N) :
  stats !! k = Some c →
  increment "total"
    (if bool_decide (is_Some (stats !! kind)) then increment kind stats else stats) !! k
  = Some (c + (if decide (kind = k) then 1 else 0)
            + (if decide (k = "total") then 1 else 0))%N.
Proof.
  intros Hk. rewrite increment_lookup.
  assert (Hinner : (if bool_decide (is_Some (stats !! kind))
                    then increment kind stats else stats) !! k
                   = Some (c + (if decide (kind = k) then 1 else 0))%N).
  { destruct (decide (kind = k)) as [->|Hne].
    - rewrite bool_decide_eq_true_2 by (rewrite Hk; eauto).
      rewrite increment_lookup, decide_True, Hk by reflexivity. simpl. f_equal. lia.
    - case_bool_decide.
      + rewrite increment_lookup, decide_False, Hk by exact Hne. f_equal. lia.
      + rewrite Hk. f_equal. lia. }
  rewrite Hinner. simpl.
  destruct (decide ("total" = k)), (decide (k = "total")); try congruence;
    simpl; f_equal; lia.
Qed.

(** X3.  Over a run of events with string kinds (and printable [userId] and
    [timestamp]), handled one after another, every call returns and each
    per-kind counter has grown by the number of events of its kind; [total]
    has grown by the number of events, plus once more for every event whose
    kind is the string [total]. *)
Theorem processAction_run_totals
    (events : list value) (kinds : list string) (stats : gmap string N) :
  Forall2 (λ ev kind,
     get ev "action" = Ok (VStr kind) ∧
     (∃ u us, get ev "userId" = Ok u ∧ to_string u = Ok us) ∧
     (∃ t ts, get ev "timestamp" = Ok t ∧ to_string t = Ok ts)) events kinds →
  Forall (λ ev, ∀ st, (processAction ev st).2 = Ok tt) events
  ∧ ∀ k c, stats !! k = Some c →
      foldl (λ st ev, (processAction ev st).1) stats events !! k
      = Some (c + N.of_nat (count_occ string_dec kinds k)
                + (if decide (k = "total") then N.of_nat (length kinds) else 0))%N.
Proof.
  intros Hall. revert stats.
  induction Hall as [|ev kind events kinds (Hk & (u & us & Hu & Hus) & (t & ts & Ht & Hts)) _ IH];
    intros stats.
  - split; [constructor|]. intros k c Hc. simpl. rewrite Hc. f_equal.
    destruct (decide (k = "total")); lia.
  - assert (Hrun : ∀ st, processAction ev st =
              (increment "total"
                 (if bool_decide (is_Some (st !! kind)) then increment kind st else st),
               Ok tt)).
    { intros st. eapply processAction_run; eauto. }
    split.
    + constructor; [intros st; rewrite Hrun; reflexivity | apply IH; exact stats].
    + intros k c Hc. simpl foldl. rewrite Hrun. simpl fst.
      destruct (IH (increment "total"
                      (if bool_decide (is_Some (stats !! kind))
                       then increment kind stats else stats))) as [_ Hrest].
      rewrite (Hrest k _ (processAction_step_lookup stats kind k c Hc)).
      f_equal. simpl count_occ. simpl length.
      destruct (string_dec kind k) as [->|Hne].
      * rewrite decide_True by reflexivity. destruct (decide (k = "total")); lia.
      * rewrite decide_False by exact Hne. destruct (decide (k = "total")); lia.
Qed.

Lemma processAction_run_totals_witness :
  foldl (λ st ev, (processAction ev st).1) initial_stats
    [event "login" "user0" (VObj []); event "login" "user1" (VObj []);
     event "total" "user2" (VObj []); event "signup" "user3" (VObj [])] !! "total"
  = Some (0 + N.of_nat (count_occ string_dec ["login"; "login"; "total"; "signup"] "total")
            + (if decide ("total" = "total")
               then N.of_nat (length ["login"; "login"; "total"; "signup"]) else 0))%N.
Proof.
  apply (proj2 (processAction_run_totals
           [event "login" "user0" (VObj []); event "login" "user1" (VObj []);
            event "total" "user2" (VObj []); event "signup" "user3" (VObj [])]
           ["login"; "login"; "total"; "signup"] initial_stats
           ltac:(repeat constructor; simpl; eauto))).
  reflexivity.
Defined.

End AnalyticsRuns.

(** ** Cache invalidator: the other branches, and runs *)

Section CacheRuns.
Import JS CacheInvalidator.

(** X4.  Every event whose kind is neither [profile_update] nor [purchase]
    (a [login], any other string, a kind that is not a string or is missing)
    is skipped: one more in [skipped], nothing cleared. *)
Theorem invalidateCache_skips_other_kinds
    (action kind : value) (printed : string) (s : state) :
  get action "action" = Ok kind → to_string kind = Ok printed →
  strict_eq_str kind "profile_update" = false →
  strict_eq_str kind "purchase" = false →
  invalidateCache action s =
    ({| invalidated := invalidated s;
        skipped := N.succ (skipped s);
        cleared := cleared s |}, Ok tt).
Proof.
  intros Hk Hp Hnu Hnp. unfold invalidateCache, skip. eff_unfold.
  rewrite Hk, Hp, Hnu, Hnp. destruct (strict_eq_str kind "login"); reflexivity.
Qed.

Lemma invalidateCache_skips_other_kinds_witness :
  invalidateCache (VObj [("userId", VStr "carol")]) initial =
    ({| invalidated := 0; skipped := 1; cleared := [] |}, Ok tt).
Proof.
  apply (invalidateCache_skips_other_kinds (VObj [("userId", VStr "carol")])
           VUndefined "undefined" initial); reflexivity.
Defined.

(** X5.  A purchase whose [data] is missing or [null] makes
    [invalidateCache] throw a [TypeError] at [action.data.productId], after
    the user cache has been invalidated and counted: the effect of the first
    call stays. *)
Theorem invalidateCache_purchase_without_data
    (action userId data : value) (id : string) (s : state) :
  get action "action" = Ok (VStr "purchase") →
  get action "userId" = Ok userId → to_string userId = Ok id →
  get action "data" = Ok data → data = VUndefined ∨ data = VNull →
  invalidateCache action s =
    ({| invalidated := N.succ (invalidated s);
        skipped := skipped s;
        cleared := cleared s ++ [UserCache id] |}, Throw TypeError).
Proof.
  intros Hk Hu Hid Hd Hnone.
  unfold invalidateCache, invalidateUserCache. eff_unfold.
  rewrite Hk. simpl. rewrite Hu, Hid, Hd. simpl.
  destruct Hnone as [-> | ->]; reflexivity.
Qed.

Lemma invalidateCache_purchase_without_data_witness :
  invalidateCache (VObj [("action", VStr "purchase"); ("userId", VStr "bob456")])
                  initial =
    ({| invalidated := 1; skipped := 0; cleared := [UserCache "bob456"] |},
     Throw TypeError).
Proof.
  apply (invalidateCache_purchase_without_data
           (VObj [("action", VStr "purchase"); ("userId", VStr "bob456")])
           (VStr "bob456") VUndefined "bob456" initial);
    try reflexivity. left; reflexivity.
Defined.

(** One event: what it adds to the invalidations and to [skipped]. *)
Lemma invalidateUserCache_step (userId : value) (s : state) :
  ∃ new, cleared (invalidateUserCache userId s).1 = cleared s ++ new ∧
         invalidated (invalidateUserCache userId s).1
           = (invalidated s + N.of_nat (length new))%N ∧
         skipped (invalidateUserCache userId s).1 = skipped s ∧
         (length new ≤ 1)%nat ∧
         ((invalidateUserCache userId s).2 = Ok tt → length new = 1).
Proof.
  unfold invalidateUserCache. eff_unfold. destruct (to_string userId); simpl.
  - eexists [_]. simpl. repeat split; [lia | lia].
  - exists []. rewrite app_nil_r. simpl. repeat split; [lia | lia | discriminate].
Qed.

Lemma invalidateProductCache_step (productId : value) (s : state) :
  ∃ new, cleared (invalidateProductCache productId s).1 = cleared s ++ new ∧
         invalidated (invalidateProductCache productId s).1
           = (invalidated s + N.of_nat (length new))%N ∧
         skipped (invalidateProductCache productId s).1 = skipped s ∧
         (length new ≤ 1)%nat ∧
         ((invalidateProductCache productId s).2 = Ok tt → length new = 1).
Proof.
  unfold invalidateProductCache. eff_unfold. destruct (to_string productId); simpl.
  - eexists [_]. simpl. repeat split; [lia | lia].
  - exists []. rewrite app_nil_r. simpl. repeat split; [lia | lia | discriminate].
Qed.

Lemma invalidateCache_step (action : value) (s : state) :
  ∃ new, cleared (invalidateCache action s).1 = cleared s ++ new ∧
         invalidated (invalidateCache action s).1
           = (invalidated s + N.of_nat (length new))%N ∧
         (length new ≤ 2)%nat ∧
         (skipped (invalidateCache action s).1 = skipped s
          ∨ skipped (invalidateCache action s).1 = N.succ (skipped s) ∧ new = []) ∧
         ((invalidateCache action s).2 = Ok tt →
          (1 ≤ length new)%nat ∨ skipped (invalidateCache action s).1 = N.succ (skipped s)).
Proof.
  assert (Hnone : ∀ r : result unit, r ≠ Ok tt →
            ∃ new : list target, cleared s = cleared s ++ new ∧
              invalidated s = (invalidated s + N.of_nat (length new))%N ∧
              (length new ≤ 2)%nat ∧
              (skipped s = skipped s ∨ skipped s = N.succ (skipped s) ∧ new = []) ∧
              (r = Ok tt → (1 ≤ length new)%nat ∨ skipped s = N.succ (skipped s))).
  { intros r Hr. exists []. rewrite app_nil_r. simpl.
    repeat split; [lia | lia | left; reflexivity | intros; contradiction]. }
  assert (Hskip : ∃ new : list target, cleared (skip s).1 = cleared s ++ new ∧
              invalidated (skip s).1 = (invalidated s + N.of_nat (length new))%N ∧
              (length new ≤ 2)%nat ∧
              (skipped (skip s).1 = skipped s
               ∨ skipped (skip s).1 = N.succ (skipped s) ∧ new = []) ∧
              ((skip s).2 = Ok tt →
               (1 ≤ length new)%nat ∨ skipped (skip s).1 = N.succ (skipped s))).
  { exists []. unfold skip. eff_unfold. simpl. rewrite app_nil_r.
    repeat split; [lia | lia | right; split; reflexivity | intros; right; reflexivity]. }
  unfold invalidateCache. eff_unfold.
  destruct (get action "action") as [kind|e]; [|apply (Hnone (Throw e)); discriminate].
  destruct (to_string kind) as [p|e]; [|apply (Hnone (Throw e)); discriminate].
  destruct (strict_eq_str kind "profile_update").
  { destruct (get action "userId") as [u|e]; [|apply (Hnone (Throw e)); discriminate].
    destruct (invalidateUserCache_step u s) as (new & Hc & Hi & Hs & Hl & Hok).
    exists new. repeat split; [exact Hc | exact Hi | lia | left; exact Hs |].
    intros Hr. left. rewrite (Hok Hr). lia. }
  destruct (strict_eq_str kind "purchase"); [|destruct (strict_eq_str kind "login"); exact Hskip].
  destruct (get action "userId") as [u|e]; [|apply (Hnone (Throw e)); discriminate].
  destruct (invalidateUserCache_step u s) as (new1 & Hc1 & Hi1 & Hs1 & Hl1 & Hok1).
  destruct (invalidateUserCache u s) as [s1 [[]|e]]; simpl in *.
  2:{ exists new1. repeat split; [exact Hc1 | exact Hi1 | lia | left; exact Hs1 |].
      discriminate. }
  destruct (match get action "data" with
            | Ok a => get a "productId" | Throw e => Throw e end) as [p'|e]; simpl.
  2:{ exists new1. repeat split; [exact Hc1 | exact Hi1 | lia | left; exact Hs1 |].
      discriminate. }
  destruct (invalidateProductCache_step p' s1) as (new2 & Hc2 & Hi2 & Hs2 & Hl2 & Hok2).
  exists (new1 ++ new2). rewrite Hc2, Hc1, Hi2, Hi1, Hs2, Hs1, length_app, app_assoc.
  repeat split; [lia | lia | left; reflexivity |].
  intros _. left. rewrite (Hok1 eq_refl). lia.
Qed.

(** X6.  Over any run of events handled one after another, whatever they are
    and whether the calls return or throw, [invalidated] counts exactly the
    invalidations made, and nothing is ever taken off either counter: after
    [n] events at most [2n] invalidations and at most [n] skips were added. *)
Theorem invalidateCache_run_invariant (events : list value) (s : state) :
  ∃ new,
    cleared (foldl (λ st ev, (invalidateCache ev st).1) s events) = cleared s ++ new ∧
    invalidated (foldl (λ st ev, (invalidateCache ev st).1) s events)
      = (invalidated s + N.of_nat (length new))%N ∧
    (length new ≤ 2 * length events)%nat ∧
    (skipped s ≤ skipped (foldl (λ st ev, (invalidateCache ev st).1) s events))%N ∧
    (skipped (foldl (λ st ev, (invalidateCache ev st).1) s events)
       ≤ skipped s + N.of_nat (length events))%N.
Proof.
  revert s. induction events as [|ev events IH]; intros s; simpl.
  - exists []. rewrite app_nil_r. simpl. repeat split; lia.
  - destruct (invalidateCache_step ev s) as (new1 & Hc1 & Hi1 & Hl1 & Hs1 & _).
    destruct (IH (invalidateCache ev s).1) as (new2 & Hc2 & Hi2 & Hl2 & Hlo & Hhi).
    exists (new1 ++ new2). rewrite Hc2, Hc1, Hi2, Hi1, length_app, app_assoc.
    repeat split; [lia | lia | |]; destruct Hs1 as [Hs1 | [Hs1 _]]; lia.
Qed.

End CacheRuns.

(** ** Notifications: what each kind sends *)

Section Notifications.
Import JS NotificationConsumer.

(** X7.  What [sendNotifications] sends for each kind, in order: for a
    [login] the alert email to the user and the push naming the device; for a
    [purchase] the confirmation email, the order line with [productId] and
    [amount] as they print, and the SMS; for a [profile_update] the email
    naming the field and the security alert; for any other kind the one line
    saying that nothing is configured for it.  A field missing from a [data]
    object prints as [undefined]. *)
Theorem sendNotifications_policy (action data : value) (sent : list notification) :
  get action "data" = Ok data →
  (∀ userId id device dev,
     get action "action" = Ok (VStr "login") →
     get action "userId" = Ok userId → to_string userId = Ok id →
     get data "device" = Ok device → to_string device = Ok dev →
     sendNotifications action sent =
       (sent ++ [LoginAlertEmail id; LoginPush dev], Ok tt))
  ∧ (∀ productId pid amount amt,
       get action "action" = Ok (VStr "purchase") →
       get data "productId" = Ok productId → to_string productId = Ok pid →
       get data "amount" = Ok amount → to_string amount = Ok amt →
       sendNotifications action sent =
         (sent ++ [PurchaseConfirmationEmail; PurchaseOrder pid amt; PurchaseSms], Ok tt))
  ∧ (∀ field f,
       get action "action" = Ok (VStr "profile_update") →
       get data "field" = Ok field → to_string field = Ok f →
       sendNotifications action sent =
         (sent ++ [ProfileChangeEmail f; SecurityAlert], Ok tt))
  ∧ (∀ kind printed,
       get action "action" = Ok kind → to_string kind = Ok printed →
       strict_eq_str kind "login" = false →
       strict_eq_str kind "purchase" = false →
       strict_eq_str kind "profile_update" = false →
       sendNotifications action sent = (sent ++ [NotConfigured printed], Ok tt)).
Proof.
  intros Hd. repeat split.
  - intros userId id device dev Hk Hu Hid Hdev Hdevs.
    unfold sendNotifications, sendLoginAlert, send. eff_unfold.
    rewrite Hk. simpl. rewrite Hu, Hid, Hd, Hdev, Hdevs. simpl.
    rewrite <- app_assoc. reflexivity.
  - intros productId pid amount amt Hk Hp Hpid Ha Hamt.
    unfold sendNotifications, sendPurchaseConfirmation, send. eff_unfold.
    rewrite Hk. simpl. rewrite Hd, Hp, Hpid, Ha, Hamt. simpl.
    rewrite <- !app_assoc. reflexivity.
  - intros field f Hk Hf Hfs.
    unfold sendNotifications, sendProfileChangeNotification, send. eff_unfold.
    rewrite Hk. simpl. rewrite Hd, Hf, Hfs. simpl.
    rewrite <- app_assoc. reflexivity.
  - intros kind printed Hk Hp Hl Hpu Hpr.
    unfold sendNotifications, send. eff_unfold.
    rewrite Hk, Hp, Hl, Hpu, Hpr. reflexivity.
Qed.

Lemma sendNotifications_policy_witness :
  sendNotifications (event "purchase" "bob456" (VObj [("productId", VStr "LAPTOP-001")])) []
  = ([] ++ [PurchaseConfirmationEmail; PurchaseOrder "LAPTOP-001" "undefined"; PurchaseSms],
     Ok tt).
Proof.
  apply (proj1 (proj2 (sendNotifications_policy
           (event "purchase" "bob456" (VObj [("productId", VStr "LAPTOP-001")]))
           (VObj [("productId", VStr "LAPTOP-001")]) [] eq_refl))
         (VStr "LAPTOP-001") "LAPTOP-001" VUndefined "undefined"); reflexivity.
Defined.

(** X8.  When [data] is missing or [null], each of the three handlers throws
    a [TypeError] at its first read of a [data] field; by then a [login] has
    already sent its alert email and a [purchase] its confirmation email,
    which stay sent, while a [profile_update] has sent nothing. *)
Theorem sendNotifications_without_data
    (action userId data : value) (id : string) (sent : list notification) :
  get action "userId" = Ok userId → to_string userId = Ok id →
  get action "data" = Ok data → data = VUndefined ∨ data = VNull →
  (get action "action" = Ok (VStr "login") →
     sendNotifications action sent = (sent ++ [LoginAlertEmail id], Throw TypeError))
  ∧ (get action "action" = Ok (VStr "purchase") →
       sendNotifications action sent =
         (sent ++ [PurchaseConfirmationEmail], Throw TypeError))
  ∧ (get action "action" = Ok (VStr "profile_update") →
       sendNotifications action sent = (sent, Throw TypeError)).
Proof.
  intros Hu Hid Hd Hnone. repeat split; intros Hk;
    unfold sendNotifications, sendLoginAlert, sendPurchaseConfirmation,
      sendProfileChangeNotification, send; eff_unfold;
    rewrite Hk; simpl; rewrite ?Hu, ?Hid, Hd; simpl;
    destruct Hnone as [-> | ->]; reflexivity.
Qed.

Lemma sendNotifications_without_data_witness :
  sendNotifications (VObj [("action", VStr "login"); ("userId", VStr "alice123");
                           ("data", VNull)]) []
  = ([] ++ [LoginAlertEmail "alice123"], Throw TypeError).
Proof.
  apply (proj1 (sendNotifications_without_data
           (VObj [("action", VStr "login"); ("userId", VStr "alice123"); ("data", VNull)])
           (VStr "alice123") VNull "alice123" [] eq_refl eq_refl eq_refl
           (or_intror eq_refl))).
  reflexivity.
Defined.

(** X9.  [sendNotifications] only ever adds to what was sent: whatever the
    message, and whether it returns or throws, the earlier notifications are
    kept in place and at most three are added; a call that returns has added
    at least one. *)
Theorem sendNotifications_appends (action : value) (sent : list notification) :
  ∃ new, (sendNotifications action sent).1 = sent ++ new ∧
         (length new ≤ 3)%nat ∧
         ((sendNotifications action sent).2 = Ok tt → (1 ≤ length new)%nat).
Proof.
  assert (Hnone : ∀ e, ∃ new : list notification,
            sent = sent ++ new ∧ (length new ≤ 3)%nat ∧
            (@Throw unit e = Ok tt → (1 ≤ length new)%nat)).
  { intros e. exists []. rewrite app_nil_r. simpl.
    repeat split; [lia | discriminate]. }
  unfold sendNotifications, sendLoginAlert, sendPurchaseConfirmation,
    sendProfileChangeNotification, send. eff_unfold.
  destruct (get action "action") as [kind|e]; [|apply Hnone].
  destruct (to_string kind) as [p|e]; [|apply Hnone].
  destruct (strict_eq_str kind "login").
  { destruct (match get action "userId" with
              | Ok a => to_string a | Throw e => Throw e end) as [id|e];
      [|apply Hnone]. simpl.
    destruct (match match get action "data" with
                    | Ok a => get a "device" | Throw e => Throw e end with
              | Ok a => to_string a | Throw e => Throw e end) as [dev|e]; simpl.
    - eexists [_; _]. rewrite <- app_assoc. simpl. repeat split; lia.
    - eexists [_]. simpl. repeat split; [lia | discriminate]. }
  destruct (strict_eq_str kind "purchase").
  { simpl.
    destruct (match match get action "data" with
                    | Ok a => get a "productId" | Throw e => Throw e end with
              | Ok a => to_string a | Throw e => Throw e end) as [pid|e]; simpl.
    2:{ eexists [_]. simpl. repeat split; [lia | discriminate]. }
    destruct (match match get action "data" with
                    | Ok a => get a "amount" | Throw e => Throw e end with
              | Ok a => to_string a | Throw e => Throw e end) as [amt|e]; simpl.
    - eexists [_; _; _]. rewrite <- !app_assoc. simpl. repeat split; lia.
    - eexists [_]. simpl. repeat split; [lia | discriminate]. }
  destruct (strict_eq_str kind "profile_update").
  { destruct (match match get action "data" with
                    | Ok a => get a "field" | Throw e => Throw e end with
              | Ok a => to_string a | Throw e => Throw e end) as [f|e];
      [|apply Hnone]. simpl.
    eexists [_; _]. rewrite <- app_assoc. simpl. repeat split; lia. }
  eexists [_]. simpl. repeat split; lia.
Qed.

End Notifications.

(** ** Audit: more on the record store *)

Section AuditStoreEdges.
Import JS Eff Subscriber AuditConsumer.

Lemma logAction_appends_entry_witness :
  ∃ flags,
    getComplianceFlags
      (event "purchase" "bob456"
         (VObj [("productId", VStr "LAPTOP-001"); ("amount", VNum 1299.99%float)]))
    = Ok flags ∧
    (readParsed {| now := 1714557600000; random := "0.4fzyo82mvyr";
                   read_fault := None; write_fault := None |}
       (logAction {| now := 1714557600000; random := "0.4fzyo82mvyr";
                     read_fault := None; write_fault := None |}
          (event "purchase" "bob456"
             (VObj [("productId", VStr "LAPTOP-001"); ("amount", VNum 1299.99%float)]))
          {| logFile := Some (Rendered (JArr [])); stderr := [] |}).1).2
    = Ok (VArr (map revive [] ++
                [auditEntry (generateLogId {| now := 1714557600000;
                                               random := "0.4fzyo82mvyr";
                                               read_fault := None;
                                               write_fault := None |})
                   (VStr "purchase") (VStr "bob456")
                   (VStr "2024-05-01T10:00:00.000Z")
                   (VObj [("productId", VStr "LAPTOP-001");
                          ("amount", VNum 1299.99%float)]) flags])).
Proof.
  apply (logAction_appends_entry
           {| now := 1714557600000; random := "0.4fzyo82mvyr";
              read_fault := None; write_fault := None |}
           {| now := 1714557600000; random := "0.4fzyo82mvyr";
              read_fault := None; write_fault := None |}
           (event "purchase" "bob456"
              (VObj [("productId", VStr "LAPTOP-001"); ("amount", VNum 1299.99%float)]))
           [] {| logFile := Some (Rendered (JArr [])); stderr := [] |}
           (VStr "purchase") (VStr "bob456") (VStr "2024-05-01T10:00:00.000Z")
           (VObj [("productId", VStr "LAPTOP-001"); ("amount", VNum 1299.99%float)])
           "purchase"); reflexivity.
Defined.

(** X11.  When the log file is there but cannot be read, or does not parse,
    the append starts over from the empty collection: the file is replaced by
    the collection of the one new entry, and nothing is written to the error
    console.  Whatever the file held is gone. *)
Theorem writeToFile_starts_over_when_unreadable
    (E : env) (entry : value) (s : store) :
  (∃ code, read_fault E = Some code) ∨ logFile s = Some Invalid →
  write_fault E = None →
  writeToFile E entry s =
    ({| logFile := stringify (VArr [entry]); stderr := stderr s |}, Ok tt).
Proof.
  intros Hbad Hw.
  assert (Hlogs : readLogs E s = (s, Ok (VArr []))).
  { rewrite readLogs_run. destruct Hbad as [[code ->] | ->]; [reflexivity|].
    destruct (read_fault E); reflexivity. }
  rewrite (writeToFile_array E entry s _ Hlogs), Hw. reflexivity.
Qed.

Lemma writeToFile_starts_over_when_unreadable_witness :
  writeToFile {| now := 0; random := "0.5"; read_fault := Some "EACCES";
                 write_fault := None |}
    (VObj [("logId", VStr "AUDIT-2-b")])
    {| logFile := Some (Rendered (JArr [JObj [("logId", JStr "AUDIT-1-a")]]));
       stderr := [] |}
  = ({| logFile := stringify (VArr [VObj [("logId", VStr "AUDIT-2-b")]]);
        stderr := [] |}, Ok tt).
Proof.
  apply (writeToFile_starts_over_when_unreadable
           {| now := 0; random := "0.5"; read_fault := Some "EACCES";
              write_fault := None |}
           (VObj [("logId", VStr "AUDIT-2-b")])
           {| logFile := Some (Rendered (JArr [JObj [("logId", JStr "AUDIT-1-a")]]));
              stderr := [] |}
           (or_introl (ex_intro _ "EACCES" eq_refl)) eq_refl).
Defined.

(** X12.  When the log file holds a JSON document that is not an array,
    [logs.push] throws before anything is written: the file is left as it is,
    one line goes to the error console, [writeToFile] returns normally and
    the entry is not stored. *)
Theorem writeToFile_keeps_foreign_document
    (E : env) (entry : value) (s : store) (doc : json) :
  read_fault E = None →
  logFile s = Some (Rendered doc) →
  (∀ l, doc ≠ JArr l) →
  writeToFile E entry s =
    ({| logFile := logFile s; stderr := stderr s ++ ["TypeError"] |}, Ok tt).
Proof.
  intros Hr Hfile Hdoc. apply (writeToFile_not_array E entry s (revive doc)).
  - rewrite readLogs_run, Hr, Hfile. reflexivity.
  - intros l Hl. destruct doc; try discriminate Hl. exact (Hdoc elems eq_refl).
Qed.

Lemma writeToFile_keeps_foreign_document_witness :
  writeToFile {| now := 0; random := "0.5"; read_fault := None; write_fault := None |}
    (VObj [("logId", VStr "AUDIT-2-b")])
    {| logFile := Some (Rendered (JObj [])); stderr := [] |}
  = ({| logFile := Some (Rendered (JObj [])); stderr := [] ++ ["TypeError"] |}, Ok tt).
Proof.
  apply (writeToFile_keeps_foreign_document
           {| now := 0; random := "0.5"; read_fault := None; write_fault := None |}
           (VObj [("logId", VStr "AUDIT-2-b")])
           {| logFile := Some (Rendered (JObj [])); stderr := [] |}
           (JObj []) eq_refl eq_refl).
  intros l. discriminate.
Defined.

(** X13.  Appends compose: with a collection of JSON values in the file and
    no I/O fault, appending a list of entries that are JSON values one call
    after another leaves a file that reads back as the old collection
    followed by the entries in the order of the calls, and writes nothing to
    the error console. *)
Theorem writeToFile_successive_appends
    (E E' : env) (entries : list value) (old : list json) (s : store) :
  read_fault E = None → write_fault E = None → read_fault E' = None →
  logFile s = Some (Rendered (JArr old)) →
  forallb representable (map revive old) = true →
  forallb representable entries = true →
  (readParsed E' (foldl (λ st e, (writeToFile E e st).1) s entries)).2
    = Ok (VArr (map revive old ++ entries))
  ∧ stderr (foldl (λ st e, (writeToFile E e st).1) s entries) = stderr s.
Proof.
  intros Hr Hw Hr'. revert old s.
  induction entries as [|e entries IH]; intros old s Hfile Hold Hrep; simpl.
  - rewrite app_nil_r. unfold readParsed, readFile. eff_unfold.
    rewrite Hr', Hfile. split; reflexivity.
  - simpl in Hrep. apply andb_true_iff in Hrep as [He Hrest].
    destruct (writeToFile_append E E' e old s Hr Hw Hr' Hfile) as [Hrun _].
    rewrite Hrun. simpl.
    assert (Hback : map revive (map (λ v, default JNull (serialize v))
                                    (map revive old ++ [e]))
                    = map revive old ++ [e]).
    { rewrite revive_serialized_elements. apply serialize_elements.
      rewrite forallb_app. simpl. rewrite Hold, He. reflexivity. }
    destruct (IH (map (λ v, default JNull (serialize v)) (map revive old ++ [e]))
                 {| logFile := stringify (VArr (map revive old ++ [e]));
                    stderr := stderr s |} eq_refl) as [Hread Herr].
    { rewrite Hback, forallb_app. simpl. rewrite Hold, He. reflexivity. }
    { exact Hrest. }
    rewrite Hread, Herr, Hback, <- app_assoc. split; reflexivity.
Qed.

Lemma writeToFile_successive_appends_witness :
  (readParsed {| now := 0; random := "0.5"; read_fault := None; write_fault := None |}
     (foldl (λ st e, (writeToFile {| now := 0; random := "0.5"; read_fault := None;
                                     write_fault := None |} e st).1)
        {| logFile := Some (Rendered (JArr [])); stderr := [] |}
        [VObj [("logId", VStr "AUDIT-1-a")];
         VObj [("logId", VStr "AUDIT-2-b"); ("amount", VNum 99.99%float)]])).2
  = Ok (VArr (map revive [] ++
              [VObj [("logId", VStr "AUDIT-1-a")];
               VObj [("logId", VStr "AUDIT-2-b"); ("amount", VNum 99.99%float)]])).
Proof.
  apply (proj1 (writeToFile_successive_appends
           {| now := 0; random := "0.5"; read_fault := None; write_fault := None |}
           {| now := 0; random := "0.5"; read_fault := None; write_fault := None |}
           [VObj [("logId", VStr "AUDIT-1-a")];
            VObj [("logId", VStr "AUDIT-2-b"); ("amount", VNum 99.99%float)]]
           [] {| logFile := Some (Rendered (JArr [])); stderr := [] |}
           eq_refl eq_refl eq_refl eq_refl eq_refl eq_refl)).
Defined.

(** The entry as it comes back from the file, field by field. *)
Lemma stored_entry_fields (logId : string) (a u t d c : value) (jc : json) :
  serialize c = Some jc → revive jc = c →
  let stored := round_trip (VObj [("logId", VStr logId); ("action", a); ("userId", u);
                                  ("timestamp", t); ("data", d); ("compliance", c)]) in
  get stored "logId" = Ok (VStr logId) ∧
  get stored "action" = Ok (kept a) ∧ get stored "userId" = Ok (kept u) ∧
  get stored "timestamp" = Ok (kept t) ∧ get stored "data" = Ok (kept d) ∧
  get stored "compliance" = Ok c.
Proof.
  intros Hc Hrc. unfold round_trip, kept. rewrite serialize_obj.
  simpl serialize_members. rewrite Hc.
  destruct (serialize a), (serialize u), (serialize t), (serialize d);
    simpl; rewrite ?Hrc; repeat split; reflexivity.
Qed.

(** X14.  Whatever fields the message has, the entry [logAction] stores reads
    back with the identifier [generateLogId] gave, the compliance flags of the
    kind, and each of [action], [userId], [timestamp] and [data] as the
    message's comes back from JSON: a field the message lacks is left out of
    the stored entry and reads [undefined] in both, and when the message
    holds JSON values only, the four fields read the same in the stored entry
    and in the message. *)
Theorem logAction_stores_message_fields
    (E E' : env) (action : value) (old : list json) (s : store)
    (kind : value) (printed : string) :
  read_fault E = None → write_fault E = None → read_fault E' = None →
  logFile s = Some (Rendered (JArr old)) →
  get action "action" = Ok kind → to_string kind = Ok printed →
  ∃ stored flags,
    (readParsed E' (logAction E action s).1).2
      = Ok (VArr (map round_trip (map revive old) ++ [stored])) ∧
    getComplianceFlags action = Ok flags ∧
    get stored "logId" = Ok (VStr (generateLogId E)) ∧
    get stored "compliance" = Ok (VArr (map VStr flags)) ∧
    (∀ k, k ∈ ["action"; "userId"; "timestamp"; "data"] →
       get stored k = rbind (get action k) (λ v, Ok (kept v))) ∧
    (representable action = true →
     ∀ k, k ∈ ["action"; "userId"; "timestamp"; "data"] →
       get stored k = get action k).
Proof.
  intros Hr Hw Hr' Hfile Hk Hp.
  assert (Hget : ∀ k, ∃ v, get action k = Ok v).
  { intros k. destruct action; try discriminate; simpl; eauto. }
  destruct (Hget "userId") as [u Hu], (Hget "timestamp") as [t Ht],
    (Hget "data") as [d Hd].
  destruct (logAction_writes E action kind u t d printed s Hk Hp Hu Ht Hd)
    as (flags & Hflags & Hlog).
  assert (Hflagsrep : representable (VArr (map VStr flags)) = true).
  { simpl. clear. induction flags as [|f flags IH]; [reflexivity | exact IH]. }
  destruct (serialize_revive _ Hflagsrep) as (jc & Hjc & Hrc).
  destruct (stored_entry_fields (generateLogId E) kind u t d (VArr (map VStr flags)) jc
              Hjc Hrc) as (Hid & Ha & Hu' & Ht' & Hd' & Hc').
  assert (Hfields : ∀ k, k ∈ ["action"; "userId"; "timestamp"; "data"] →
            get (round_trip (auditEntry (generateLogId E) kind u t d flags)) k
            = rbind (get action k) (λ v, Ok (kept v))).
  { intros k Hin. repeat (apply elem_of_cons in Hin as [-> | Hin]).
    - rewrite Hk. exact Ha.
    - rewrite Hu. exact Hu'.
    - rewrite Ht. exact Ht'.
    - rewrite Hd. exact Hd'.
    - apply elem_of_nil in Hin. contradiction. }
  exists (round_trip (auditEntry (generateLogId E) kind u t d flags)), flags.
  split; [|split; [|split; [|split; [|split]]]].
  - rewrite Hlog.
    apply (writeToFile_append E E' _ old s Hr Hw Hr' Hfile).
  - exact Hflags.
  - exact Hid.
  - exact Hc'.
  - exact Hfields.
  - intros Hrep k Hin. rewrite (Hfields k Hin).
    destruct (Hget k) as [v Hv]. rewrite Hv. simpl.
    rewrite (kept_get action k v Hrep Hv). reflexivity.
Qed.

Lemma logAction_stores_message_fields_witness :
  ∃ stored flags,
    (readParsed {| now := 1714557600000; random := "0.4fzyo82mvyr";
                   read_fault := None; write_fault := None |}
       (logAction {| now := 1714557600000; random := "0.4fzyo82mvyr";
                     read_fault := None; write_fault := None |}
          (VObj [("action", VStr "login"); ("data", VObj [("attempts", VNum nan)])])
          {| logFile := Some (Rendered (JArr [])); stderr := [] |}).1).2
      = Ok (VArr (map round_trip (map revive []) ++ [stored])) ∧
    getComplianceFlags
      (VObj [("action", VStr "login"); ("data", VObj [("attempts", VNum nan)])])
    = Ok flags ∧
    get stored "userId" = Ok VUndefined ∧
    get stored "data" = Ok (VObj [("attempts", VNull)]).
Proof.
  destruct (logAction_stores_message_fields
              {| now := 1714557600000; random := "0.4fzyo82mvyr";
                 read_fault := None; write_fault := None |}
              {| now := 1714557600000; random := "0.4fzyo82mvyr";
                 read_fault := None; write_fault := None |}
              (VObj [("action", VStr "login"); ("data", VObj [("attempts", VNum nan)])])
              []
              {| logFile := Some (Rendered (JArr [])); stderr := [] |}
              (VStr "login") "login" eq_refl eq_refl eq_refl eq_refl eq_refl eq_refl)
    as (stored & flags & Hread & Hflags & _ & _ & Hfields & _).
  exists stored, flags. split; [exact Hread|]. split; [exact Hflags|]. split.
  - apply (Hfields "userId"). apply list_elem_of_In. simpl. auto.
  - apply (Hfields "data"). apply list_elem_of_In. simpl. auto.
Defined.

(** X15.  A message whose content is the JSON text [null] is a poison
    message for every consumer: the handler throws a [TypeError] at its first
    property read, before any effect on the consumer's state, so the delivery
    is never acknowledged and stays outstanding. *)
Theorem null_message_is_never_acknowledged
    (E : env) (r : Consumers.role) (msg : delivery)
    (c : consumer (Consumers.fields r)) :
  content msg = Rendered JNull →
  deliver (Consumers.consume E r) msg c =
    ({| this := this c; unacked := {[ deliveryTag msg ]} ∪ unacked c |},
     Throw TypeError).
Proof.
  intros Hnull. rewrite consume_on_message, deliver_on_message, Hnull. simpl.
  destruct r; reflexivity.
Qed.

Lemma null_message_is_never_acknowledged_witness :
  deliver (Consumers.consume {| now := 0; random := "0.5"; read_fault := None;
                                write_fault := None |} Consumers.Analytics)
    {| content := Rendered JNull; deliveryTag := 9 |}
    {| this := AnalyticsConsumer.initial_stats; unacked := ∅ |}
  = ({| this := AnalyticsConsumer.initial_stats; unacked := {[ 9%N ]} ∪ ∅ |},
     Throw TypeError).
Proof.
  apply (null_message_is_never_acknowledged
           {| now := 0; random := "0.5"; read_fault := None; write_fault := None |}
           Consumers.Analytics
           {| content := Rendered JNull; deliveryTag := 9 |}
           {| this := AnalyticsConsumer.initial_stats; unacked := ∅ |} eq_refl).
Defined.

End AuditStoreEdges.

(** ** Audit: the shape of a log identifier *)

Section LogIdShape.
Import JS AuditConsumer.

Lemma substring_length (s : string) : ∀ n m,
  String.length (String.substring n m s) = Nat.min m (String.length s - n).
Proof.
  induction s as [|c s IH]; intros [|n] [|m]; simpl; try reflexivity.
  - rewrite IH. rewrite Nat.sub_0_r. reflexivity.
  - apply IH.
  - apply IH.
Qed.

(** X16.  The identifier is [AUDIT-], the clock's milliseconds in decimal, a
    dash, and the random part; the random part is what the random number
    prints after its first two characters, cut at nine: nine characters when
    the number prints with eleven or more, fewer when it prints with fewer,
    and none at all when it prints with two or fewer (the number 0). *)
Theorem generateLogId_format (E : env) :
  ∃ suffix,
    generateLogId E =
      "AUDIT-" +:+ NilZero.string_of_uint (N.to_uint (now E)) +:+ "-" +:+ suffix ∧
    String.length suffix = Nat.min 9 (String.length (random E) - 2).
Proof.
  exists (String.substring 2 9 (random E)). split; [reflexivity|].
  apply substring_length.
Qed.

End LogIdShape.

(** ** Publisher, setup and consumers on one broker *)

Section Declarations.
Import JS Eff Broker Consumers.


Lemma assertQueue_durable name b b' :
  assertQueue name true b = (b', Ok tt) →
  (∃ Q, queues b' !! name = Some Q ∧ q_durable Q = true) ∧
  (∀ q Q, queues b !! q = Some Q → queues b' !! q = Some Q) ∧
  exchanges b' = exchanges b ∧ bindings b' = bindings b.
Proof.
  unfold assertQueue. destruct (queues b !! name) as [Q0|] eqn:HQ.
  - destruct (Bool.eqb (q_durable Q0) true) eqn:Hd; [|discriminate].
    apply Bool.eqb_prop in Hd. intros [= <-]. eauto 6.
  - intros [= <-]. simpl. rewrite lookup_insert_eq. split; [eauto|].
    split; [|split; reflexivity]. intros q Q Hq.
    rewrite lookup_insert_ne; [exact Hq | congruence].
Qed.

Lemma bind_all_durable ex names : ∀ b b',
  Setup.bind_all ex names b = (b', Ok tt) →
  (∀ q Q, queues b !! q = Some Q → queues b' !! q = Some Q) ∧
  ∀ q, q ∈ names → ∃ Q, queues b' !! q = Some Q ∧ q_durable Q = true.
Proof.
  induction names as [|name names IH]; intros b b'; simpl.
  - eff_unfold. intros [= <-]. split; [auto|]. intros q Hq.
    apply elem_of_nil in Hq. contradiction.
  - eff_unfold.
    destruct (assertQueue name true b) as [b1 [[]|e]] eqn:Ha; [|discriminate].
    destruct (bindQueue name ex "" b1) as [b2 [[]|e]] eqn:Hb; [|discriminate].
    intros Hrest.
    apply assertQueue_durable in Ha as ((Q1 & HQ1 & Hd1) & Hkeep1 & _ & _).
    apply bindQueue_ok in Hb as (_ & _ & Hq2 & _).
    apply IH in Hrest as (Hkeep3 & Hall). split.
    + intros q Q Hq. apply Hkeep3. rewrite Hq2. apply Hkeep1, Hq.
    + intros q Hq. apply elem_of_cons in Hq as [->|Hin]; [|apply Hall, Hin].
      exists Q1. split; [|exact Hd1]. apply Hkeep3. rewrite Hq2. exact HQ1.
Qed.

Lemma assertQueue_noop q Q b :
  queues b !! q = Some Q → q_durable Q = true → assertQueue q true b = (b, Ok tt).
Proof. intros HQ Hd. unfold assertQueue. rewrite HQ, Hd. reflexivity. Qed.

Lemma bindQueue_noop q ex key b :
  is_Some (queues b !! q) → is_Some (exchanges b !! ex) →
  (q, ex, key) ∈ bindings b →
  bindQueue q ex key b = (b, Ok tt).
Proof.
  intros [Q HQ] [e He] Hin. unfold bindQueue. rewrite HQ, He. f_equal.
  destruct b as [exs qs bs]. simpl in *. f_equal.
  apply subseteq_union_1_L, singleton_subseteq_l, Hin.
Qed.

Lemma bind_all_noop ex names b :
  is_Some (exchanges b !! ex) →
  (∀ q, q ∈ names →
        (∃ Q, queues b !! q = Some Q ∧ q_durable Q = true) ∧ (q, ex, "") ∈ bindings b) →
  Setup.bind_all ex names b = (b, Ok tt).
Proof.
  intros Hex. induction names as [|name names IH]; intros Hall; simpl; [reflexivity|].
  eff_unfold.
  destruct (Hall name) as [(Q & HQ & Hd) Hin]; [left|].
  rewrite (assertQueue_noop name Q b HQ Hd).
  rewrite (bindQueue_noop name ex "" b (ex_intro _ Q HQ) Hex Hin).
  apply IH. intros q Hq. apply Hall. right. exact Hq.
Qed.

(** X18.  [setupExchange] can be run again: on the broker a successful run
    left, a second run succeeds and changes nothing (no exchange, queue,
    message or binding). *)
Theorem setupExchange_idempotent cfg (b b1 : broker) :
  Setup.setupExchange cfg b = (b1, Ok tt) →
  Setup.setupExchange cfg b1 = (b1, Ok tt).
Proof.
  intros Hsetup.
  destruct (setupExchange_ok cfg b b1 Hsetup) as ((e & He & Ht & Hd) & Hbound).
  assert (Hdur : ∀ q, q ∈ Config.queue_names cfg →
            ∃ Q, queues b1 !! q = Some Q ∧ q_durable Q = true).
  { revert Hsetup. unfold Setup.setupExchange. eff_unfold.
    destruct (assertExchange _ _ _ b) as [b0 [[]|e0]]; [|discriminate].
    intros Hloop. apply bind_all_durable in Hloop as [_ Hall]. exact Hall. }
  unfold Setup.setupExchange, assertExchange. eff_unfold.
  rewrite He, Ht, Hd, String.eqb_refl, Bool.eqb_reflx. simpl.
  apply bind_all_noop; [rewrite He; eauto|].
  intros q Hq. split; [apply Hdur, Hq | apply Hbound, Hq].
Qed.

Lemma setupExchange_idempotent_witness :
  Setup.setupExchange Config.rabbitmq (Setup.setupExchange Config.rabbitmq Broker.empty).1
  = ((Setup.setupExchange Config.rabbitmq Broker.empty).1, Ok tt).
Proof.
  apply (setupExchange_idempotent Config.rabbitmq Broker.empty).
  vm_compute. reflexivity.
Defined.

Lemma queue_of_listed cfg (k q : string) :
  Config.queue_of cfg k = Some q → q ∈ Config.queue_names cfg.
Proof.
  unfold Config.queue_of, Config.queue_names.
  destruct (List.find _ (Config.queues cfg)) as [[k' q']|] eqn:Hfind; [|discriminate].
  intros [= <-]. apply find_some in Hfind as [Hin _].
  apply list_elem_of_In, in_map_iff. exists (k', q'). split; [reflexivity | exact Hin].
Qed.

(** X19.  The consumers declare their queues the way [setupExchange] does:
    after a successful setup the [connect] of each consumer the configuration
    lists succeeds and changes nothing.  On any broker, [connect] declares at
    most the consumer's queue: it never touches an exchange or a binding, so a
    consumer that connects where setup has not run is not bound to the
    exchange. *)
Theorem consumer_connect_agrees_with_setup cfg (r : role) (b b1 : broker) (q : string) :
  Setup.setupExchange cfg b = (b1, Ok tt) →
  Config.queue_of cfg (ConsumerConnect.role_key r) = Some q →
  ConsumerConnect.connect cfg r b1 = (b1, Ok tt)
  ∧ ∀ b0, exchanges (ConsumerConnect.connect cfg r b0).1 = exchanges b0 ∧
          bindings (ConsumerConnect.connect cfg r b0).1 = bindings b0.
Proof.
  intros Hsetup Hq. split.
  - unfold ConsumerConnect.connect. rewrite Hq. simpl.
    assert (Hdur : ∃ Q, queues b1 !! q = Some Q ∧ q_durable Q = true).
    { revert Hsetup. unfold Setup.setupExchange. eff_unfold.
      destruct (assertExchange _ _ _ b) as [b0 [[]|e0]]; [|discriminate].
      intros Hloop. apply bind_all_durable in Hloop as [_ Hall].
      apply Hall. eapply queue_of_listed, Hq. }
    destruct Hdur as (Q & HQ & Hd). apply (assertQueue_noop q Q b1 HQ Hd).
  - intros b0. unfold ConsumerConnect.connect, assertQueue.
    destruct (queues b0 !! _) as [Q|]; [|split; reflexivity].
    destruct (Bool.eqb (q_durable Q) true); split; reflexivity.
Qed.

Lemma consumer_connect_agrees_with_setup_witness :
  ConsumerConnect.connect Config.rabbitmq Audit
    (Setup.setupExchange Config.rabbitmq Broker.empty).1
  = ((Setup.setupExchange Config.rabbitmq Broker.empty).1, Ok tt).
Proof.
  apply (proj1 (consumer_connect_agrees_with_setup Config.rabbitmq Audit Broker.empty
                  (Setup.setupExchange Config.rabbitmq Broker.empty).1 "audit.queue"
                  ltac:(vm_compute; reflexivity) eq_refl)).
Defined.

(** A publish moves messages only: exchanges, bindings and the set of
    declared queues stay. *)
Lemma publish_frame ex key m b :
  exchanges (publish ex key m b) = exchanges b ∧
  bindings (publish ex key m b) = bindings b ∧
  ∀ q, is_Some (queues (publish ex key m b) !! q) ↔ is_Some (queues b !! q).
Proof.
  unfold publish. destruct (route b ex key) as [targets|]; simpl;
    [|repeat split; auto].
  repeat split; intros Hq.
  - rewrite map_lookup_imap in Hq. destruct (queues b !! q); [eauto|].
    simpl in Hq. destruct Hq as [? Hq]. discriminate Hq.
  - rewrite map_lookup_imap. destruct Hq as [Q ->]. simpl. eauto.
Qed.

Lemma publishAction_fanout_step cfg this now action userId data (b : broker) e q :
  ActionPublisher.channel this = Some tt →
  exchanges b !! Config.name (Config.exchange cfg) = Some e → ex_type e = "fanout" →
  is_Some (queues b !! q) → bound b q (Config.name (Config.exchange cfg)) →
  let b' := (ActionPublisher.publishAction cfg this now action userId data b).1 in
  messages b' q =
    messages b q ++
      [{| content := default Invalid
                       (stringify (ActionPublisher.make_message now action userId data));
          persistent := true; contentType := "application/json" |}] ∧
  exchanges b' !! Config.name (Config.exchange cfg) = Some e ∧
  is_Some (queues b' !! q) ∧ bound b' q (Config.name (Config.exchange cfg)).
Proof.
  intros Hch He Ht Hq Hb.
  destruct (publishAction_run cfg this now action userId data b Hch)
    as (buffer & Hbuf & Hrun).
  cbv zeta. rewrite Hrun, Hbuf. cbn [fst default].
  destruct (publish_fanout b _ "" e
              {| content := buffer; persistent := true;
                 contentType := "application/json" |} He Ht) as [Hbound _].
  destruct (publish_frame (Config.name (Config.exchange cfg)) ""
              {| content := buffer; persistent := true;
                 contentType := "application/json" |} b) as (Hex & Hbs & Hqs).
  split; [apply Hbound; assumption|]. split; [rewrite Hex; exact He|].
  split; [apply Hqs, Hq|]. unfold bound. rewrite Hbs. exact Hb.
Qed.

(** X20.  A burst of publishes keeps its order in every queue: after
    [setupExchange] on a fanout exchange, publishing a list of events one
    call after another on a connected publisher appends to each configured
    queue exactly the renderings of the records built, one per event, in the
    order of the calls. *)
Theorem publishAction_burst_in_order
    cfg this (b0 b1 : broker) (events : list (string * value * value * value))
    (q : string) :
  Config.type (Config.exchange cfg) = "fanout" →
  Setup.setupExchange cfg b0 = (b1, Ok tt) →
  ActionPublisher.channel this = Some tt →
  q ∈ Config.queue_names cfg →
  messages
    (foldl (λ b ev, (ActionPublisher.publishAction cfg this
                       ev.1.1.1 ev.1.1.2 ev.1.2 ev.2 b).1) b1 events) q
  = messages b1 q ++
    map (λ ev, {| content := default Invalid
                    (stringify (ActionPublisher.make_message
                                  ev.1.1.1 ev.1.1.2 ev.1.2 ev.2));
                  persistent := true; contentType := "application/json" |}) events.
Proof.
  intros Hfan Hsetup Hch Hq.
  destruct (setupExchange_ok cfg b0 b1 Hsetup) as ((e & He & Ht & _) & Hqueues).
  rewrite Hfan in Ht. destruct (Hqueues q Hq) as [Hdecl Hbind].
  assert (Hb : bound b1 q (Config.name (Config.exchange cfg))) by (exists ""; exact Hbind).
  clear Hsetup Hqueues Hbind. revert b1 He Hdecl Hb.
  induction events as [|[[[now action] userId] data] events IH]; intros b He Hdecl Hb; simpl.
  - symmetry. apply app_nil_r.
  - destruct (publishAction_fanout_step cfg this now action userId data b e q
                Hch He Ht Hdecl Hb) as (Hmsgs & He' & Hdecl' & Hb').
    rewrite (IH _ He' Hdecl' Hb'), Hmsgs, <- app_assoc. reflexivity.
Qed.

Lemma publishAction_burst_in_order_witness :
  (parse ∘ content) <$>
    messages
      (foldl (λ b ev, (ActionPublisher.publishAction Config.rabbitmq
                         {| ActionPublisher.connection := Some "amqp://localhost";
                            ActionPublisher.channel := Some tt |}
                         ev.1.1.1 ev.1.1.2 ev.1.2 ev.2 b).1)
         (Setup.setupExchange Config.rabbitmq Broker.empty).1
         [("2024-05-01T10:00:00.000Z", VStr "login", VStr "user0", VUndefined);
          ("2024-05-01T10:00:00.500Z", VStr "login", VStr "user1", VUndefined)])
      "cache.invalidation.queue"
  = [Ok (ActionPublisher.make_message "2024-05-01T10:00:00.000Z"
           (VStr "login") (VStr "user0") VUndefined);
     Ok (ActionPublisher.make_message "2024-05-01T10:00:00.500Z"
           (VStr "login") (VStr "user1") VUndefined)].
Proof.
  rewrite (publishAction_burst_in_order Config.rabbitmq
             {| ActionPublisher.connection := Some "amqp://localhost";
                ActionPublisher.channel := Some tt |}
             Broker.empty (Setup.setupExchange Config.rabbitmq Broker.empty).1
             [("2024-05-01T10:00:00.000Z", VStr "login", VStr "user0", VUndefined);
              ("2024-05-01T10:00:00.500Z", VStr "login", VStr "user1", VUndefined)]
             "cache.invalidation.queue" eq_refl ltac:(vm_compute; reflexivity) eq_refl
             ltac:(vm_compute; repeat constructor)).
  vm_compute. reflexivity.
Defined.

End Declarations.
